(** * todo-app: the task store, the view pipeline and the persistence of
    [src/App.tsx], embedded in Rocq.

    The React component keeps its state in [useState] cells and changes it
    in event handlers; here the cells are the fields of [AppState] and every
    handler is a function from state to state.  Values of the JavaScript
    runtime are modelled as the engine has them: a string is its sequence of
    UTF-16 code units, a time value is a number of milliseconds since the
    epoch (or NaN), and [localStorage] holds a string or nothing. *)

From Stdlib Require Import Bool String Ascii List ZArith NArith Lia Permutation Sorted.
Import ListNotations.
Local Open Scope Z_scope.
Set Warnings "-register-all".

(** ** JavaScript strings *)

(** A string is a list of UTF-16 code units, each in [0, 65535]. *)
Definition jsstring := list N.

(** The code units of a literal written in the source (ASCII only). *)
Definition js (s : string) : jsstring :=
  map N_of_ascii (list_ascii_of_string s).

Fixpoint jsstring_eqb (s t : jsstring) : bool :=
  match s, t with
  | [], [] => true
  | c :: s', d :: t' => (c =? d)%N && jsstring_eqb s' t'
  | _, _ => false
  end.

(** [ToBoolean] of a string: only the empty string is falsy. *)
Definition string_truthy (s : jsstring) : bool :=
  match s with [] => false | _ :: _ => true end.

(** WhiteSpace and LineTerminator code points of ECMAScript, the ones
    [String.prototype.trim] strips: TAB, LF, VT, FF, CR, SP, NBSP, U+1680,
    U+2000..U+200A, LS, PS, U+202F, U+205F, U+3000 and the BOM. *)
Definition isWhiteSpace (c : N) : bool :=
  (((9 <=? c) && (c <=? 13)) || (c =? 32) || (c =? 160) || (c =? 5760)
   || ((8192 <=? c) && (c <=? 8202)) || (c =? 8232) || (c =? 8233)
   || (c =? 8239) || (c =? 8287) || (c =? 12288) || (c =? 65279))%N.

Fixpoint trimStart (s : jsstring) : jsstring :=
  match s with
  | c :: s' => if isWhiteSpace c then trimStart s' else s
  | [] => []
  end.

Definition trimEnd (s : jsstring) : jsstring := rev (trimStart (rev s)).

(** [s.trim()] *)
Definition trim (s : jsstring) : jsstring := trimEnd (trimStart s).

Fixpoint startsWith (p s : jsstring) : bool :=
  match p, s with
  | [], _ => true
  | c :: p', d :: s' => (c =? d)%N && startsWith p' s'
  | _ :: _, [] => false
  end.

(** [s.includes(p)]: [p] occurs in [s] as a contiguous run of code units. *)
Fixpoint includes (s p : jsstring) : bool :=
  startsWith p s ||
  match s with
  | [] => false
  | _ :: s' => includes s' p
  end.

(** ** Numbers that may be NaN *)

(** The numbers the code computes with are integers (identifiers, ranks,
    time values) or NaN; [None] is NaN.  A double holds an integer of
    magnitude at most 2^53 exactly.  The difference of two time values can
    be larger; the engine then rounds it, which keeps its sign. *)
Definition number := option Z.

Definition num_sub (x y : number) : number :=
  match x, y with
  | Some a, Some b => Some (a - b)
  | _, _ => None
  end.

(** ** Data model *)

Inductive Category := work | personal | shopping | health | other.
Inductive Priority := low | medium | high.
Inductive Filter := all | active | completed_only.

(** What the [dueDate] property holds at run time when it is not
    [undefined].  [handleSubmit] stores a [Date] object, whose time value
    is NaN for an Invalid Date; [JSON.parse] never rebuilds a [Date], so a
    task read back from storage carries the string (or the [null]) that
    [JSON.stringify] wrote for it. *)
Inductive DueDate :=
| DateObj (tv : number)
| DateStr (s : jsstring)
| DateNull.

Record Todo := mkTodo {
  id : Z;
  text : jsstring;
  completed : bool;
  category : Category;
  priority : Priority;
  dueDate : option DueDate        (* [None] is [undefined] *)
}.

(** The [useState] cells of [App] that the handlers read or write.
    [isDarkMode] and the motion value [progress] only drive styling. *)
Record AppState := mkState {
  todos : list Todo;
  inputValue : jsstring;
  searchTerm : jsstring;
  statusFilter : Filter;
  selectedCategory : Category;
  selectedPriority : Priority;
  selectedDate : jsstring
}.

(** [useState] initial values. *)
Definition initialState : AppState :=
  mkState [] [] [] all other medium [].

Definition setTodos (l : list Todo) (st : AppState) : AppState :=
  mkState l (inputValue st) (searchTerm st) (statusFilter st)
          (selectedCategory st) (selectedPriority st) (selectedDate st).

Definition setInputValue (s : jsstring) (st : AppState) : AppState :=
  mkState (todos st) s (searchTerm st) (statusFilter st)
          (selectedCategory st) (selectedPriority st) (selectedDate st).

Definition setSelectedDate (s : jsstring) (st : AppState) : AppState :=
  mkState (todos st) (inputValue st) (searchTerm st) (statusFilter st)
          (selectedCategory st) (selectedPriority st) s.

Definition setSearchTerm (s : jsstring) (st : AppState) : AppState :=
  mkState (todos st) (inputValue st) s (statusFilter st)
          (selectedCategory st) (selectedPriority st) (selectedDate st).

Definition setStatusFilter (f : Filter) (st : AppState) : AppState :=
  mkState (todos st) (inputValue st) (searchTerm st) f
          (selectedCategory st) (selectedPriority st) (selectedDate st).

Definition setSelectedCategory (c : Category) (st : AppState) : AppState :=
  mkState (todos st) (inputValue st) (searchTerm st) (statusFilter st)
          c (selectedPriority st) (selectedDate st).

Definition setSelectedPriority (p : Priority) (st : AppState) : AppState :=
  mkState (todos st) (inputValue st) (searchTerm st) (statusFilter st)
          (selectedCategory st) p (selectedDate st).

(** [ToBoolean(todo.dueDate)]: an object is truthy even when it is an
    Invalid Date, a string is truthy unless empty, [null] and [undefined]
    are falsy. *)
Definition due_truthy (d : option DueDate) : bool :=
  match d with
  | Some (DateObj _) => true
  | Some (DateStr s) => string_truthy s
  | Some DateNull => false
  | None => false
  end.

(** ** Time values and the date-time string format *)

(** A small option monad for the parsers. *)
Definition bind {A B : Type} (x : option A) (f : A -> option B) : option B :=
  match x with
  | Some a => f a
  | None => None
  end.

Notation "x <- c1 ;; c2" := (bind c1 (fun x => c2))
  (at level 61, c1 at next level, right associativity).
Notation "' p <- c1 ;; c2" := (bind c1 (fun x => let p := x in c2))
  (at level 61, p pattern, c1 at next level, right associativity).

Definition msPerDay : Z := 86400000.

(** [TimeClip]: a time value is at most 8.64e15 ms away from the epoch. *)
Definition maxTime : Z := 8640000000000000.

Definition TimeClip (t : Z) : number :=
  if (- maxTime <=? t) && (t <=? maxTime) then Some t else None.

(** Year, month (1..12) and day of month of a day number within a 400-year
    era that starts on 1 March: [doe] counts days from 0 to 146096.  The
    year returned is relative to the start of the era. *)
Definition civil_of_doe (doe : Z) : Z * Z * Z :=
  let yoe := (doe - doe / 1460 + doe / 36524 - doe / 146096) / 365 in
  let doy := doe - (365 * yoe + yoe / 4 - yoe / 100) in
  let mp := (5 * doy + 2) / 153 in
  let d := doy - (153 * mp + 2) / 5 + 1 in
  let m := if mp <? 10 then mp + 3 else mp - 9 in
  (if m <=? 2 then yoe + 1 else yoe, m, d).

(** [YearFromTime], [MonthFromTime] + 1 and [DateFromTime] of the day
    number [z] (days since 1970-01-01), in the proleptic Gregorian
    calendar. *)
Definition civil_from_days (z : Z) : Z * Z * Z :=
  let z' := z + 719468 in
  let '(y, m, d) := civil_of_doe (z' mod 146097) in
  (y + 400 * (z' / 146097), m, d).

(** [MakeDay]: the day number of a calendar date. *)
Definition days_from_civil (y m d : Z) : Z :=
  let y' := if m <=? 2 then y - 1 else y in
  let era := y' / 400 in
  let yoe := y' mod 400 in
  let doy := (153 * (if 2 <? m then m - 3 else m + 9) + 2) / 5 + d - 1 in
  let doe := yoe * 365 + yoe / 4 - yoe / 100 + doy in
  era * 146097 + doe - 719468.

Definition leap_year (y : Z) : bool :=
  ((y mod 4 =? 0) && negb (y mod 100 =? 0)) || (y mod 400 =? 0).

Definition days_in_month (y m : Z) : Z :=
  if m =? 2 then (if leap_year y then 29 else 28)
  else if (m =? 4) || (m =? 6) || (m =? 9) || (m =? 11) then 30
  else 31.

(** The [n] low decimal digits of [v], most significant first. *)
Fixpoint pad (n : nat) (v : Z) : jsstring :=
  match n with
  | O => []
  | S n' => pad n' (v / 10) ++ [Z.to_N (48 + v mod 10)]
  end.

(** Years 0..9999 print with four digits, the others with a sign and six. *)
Definition year_text (y : Z) : jsstring :=
  if (0 <=? y) && (y <=? 9999) then pad 4 y
  else (if y <? 0 then js "-" else js "+") ++ pad 6 (Z.abs y).

(** [Date.prototype.toISOString] of a finite time value:
    YYYY-MM-DDTHH:mm:ss.sssZ, in UTC. *)
Definition toISOString (t : Z) : jsstring :=
  let '(y, m, d) := civil_from_days (t / msPerDay) in
  let ms := t mod msPerDay in
  year_text y ++ js "-" ++ pad 2 m ++ js "-" ++ pad 2 d ++ js "T"
  ++ pad 2 (ms / 3600000) ++ js ":" ++ pad 2 (ms / 60000 mod 60) ++ js ":"
  ++ pad 2 (ms / 1000 mod 60) ++ js "." ++ pad 3 (ms mod 1000) ++ js "Z".

Definition digit (c : N) : option Z :=
  if ((48 <=? c) && (c <=? 57))%N then Some (Z.of_N c - 48) else None.

(** Reads exactly [n] decimal digits, continuing the value [acc]. *)
Fixpoint take_digits (n : nat) (acc : Z) (s : jsstring) : option (Z * jsstring) :=
  match n with
  | O => Some (acc, s)
  | S n' =>
      match s with
      | c :: s' => d <- digit c ;; take_digits n' (10 * acc + d) s'
      | [] => None
      end
  end.

(** Reads the code unit [c]. *)
Definition expect (c : N) (s : jsstring) : option jsstring :=
  match s with
  | d :: s' => if (d =? c)%N then Some s' else None
  | [] => None
  end.

Record DateFields := mkFields {
  f_year : Z; f_month : Z; f_day : Z;
  f_hour : Z; f_minute : Z; f_second : Z; f_ms : Z;
  f_negzero : bool                 (* the year was written -000000 *)
}.

Definition iso_year (s : jsstring) : option (Z * bool * jsstring) :=
  match s with
  | c :: s' =>
      if (c =? 43)%N then '(y, r) <- take_digits 6 0 s' ;; Some (y, false, r)
      else if (c =? 45)%N then
        '(y, r) <- take_digits 6 0 s' ;; Some (- y, y =? 0, r)
      else '(y, r) <- take_digits 4 0 s ;; Some (y, false, r)
  | [] => None
  end.

(** The two shapes of the date-time string format that the program meets:
    the date-only form YYYY-MM-DD, which a date input yields and which is
    read as UTC midnight, and the full UTC form that [toISOString] prints.
    [None]: the string has neither shape. *)
Definition iso_fields (s : jsstring) : option DateFields :=
  '(y, nz, s) <- iso_year s ;;
  s <- expect 45%N s ;;
  '(m, s) <- take_digits 2 0 s ;;
  s <- expect 45%N s ;;
  '(d, s) <- take_digits 2 0 s ;;
  match s with
  | [] => Some (mkFields y m d 0 0 0 0 nz)
  | _ =>
      s <- expect 84%N s ;;
      '(h, s) <- take_digits 2 0 s ;;
      s <- expect 58%N s ;;
      '(mi, s) <- take_digits 2 0 s ;;
      s <- expect 58%N s ;;
      '(sec, s) <- take_digits 2 0 s ;;
      s <- expect 46%N s ;;
      '(ms, s) <- take_digits 3 0 s ;;
      s <- expect 90%N s ;;
      match s with
      | [] => Some (mkFields y m d h mi sec ms nz)
      | _ => None
      end
  end.

(** Every element lies in the range the format gives it. *)
Definition fields_in_bounds (f : DateFields) : bool :=
  (1 <=? f_month f) && (f_month f <=? 12)
  && (1 <=? f_day f) && (f_day f <=? 31)
  && (f_hour f <=? 24) && (f_minute f <=? 59) && (f_second f <=? 59).

(** The date exists in the calendar and the time is a time of that day. *)
Definition fields_exact (f : DateFields) : bool :=
  (f_day f <=? days_in_month (f_year f) (f_month f)) && (f_hour f <=? 23).

(** [MakeDate (MakeDay ...) (MakeTime ...)] *)
Definition fields_time (f : DateFields) : Z :=
  days_from_civil (f_year f) (f_month f) (f_day f) * msPerDay
  + ((f_hour f * 60 + f_minute f) * 60 + f_second f) * 1000 + f_ms f.

(** ** JSON values, [JSON.stringify] and [JSON.parse] *)

(** What [JSON.parse] can return.  A number is kept as the decimal its
    literal denotes, [m * 10 ^ e]; the engine rounds that to a double, which
    changes nothing for an integer of magnitude at most 2^53.  An object is
    the list of its properties in creation order. *)
Inductive json :=
| JNull
| JBool (b : bool)
| JNum (m e : Z)
| JStr (s : jsstring)
| JArr (l : list json)
| JObj (l : list (jsstring * json)).

Definition hex_char (v : Z) : N :=
  Z.to_N (if v <? 10 then 48 + v else 87 + v).

(** The six-character escape of a code unit, with lower-case hex digits. *)
Definition escape_u (c : N) : jsstring :=
  let v := Z.of_N c in
  js "\u" ++ [hex_char (v / 4096); hex_char (v / 256 mod 16);
              hex_char (v / 16 mod 16); hex_char (v mod 16)].

Definition is_high_surrogate (c : N) : bool := ((55296 <=? c) && (c <=? 56319))%N.
Definition is_low_surrogate (c : N) : bool := ((56320 <=? c) && (c <=? 57343))%N.

(** A code unit that is not a surrogate, as [QuoteJSONString] writes it. *)
Definition quote_unit (c : N) : jsstring :=
  if (c =? 8)%N then js "\b"
  else if (c =? 9)%N then js "\t"
  else if (c =? 10)%N then js "\n"
  else if (c =? 12)%N then js "\f"
  else if (c =? 13)%N then js "\r"
  else if (c =? 34)%N then [92; 34]%N
  else if (c =? 92)%N then [92; 92]%N
  else if (c <? 32)%N then escape_u c
  else [c].

(** The characters between the quotes: a surrogate pair is copied, a lone
    surrogate is escaped. *)
Fixpoint quote_chars (s : jsstring) : jsstring :=
  match s with
  | [] => []
  | c :: s' =>
      if is_high_surrogate c then
        match s' with
        | d :: s'' =>
            if is_low_surrogate d then c :: d :: quote_chars s''
            else escape_u c ++ quote_chars s'
        | [] => escape_u c
        end
      else if is_low_surrogate c then escape_u c ++ quote_chars s'
      else quote_unit c ++ quote_chars s'
  end.

Definition QuoteJSONString (s : jsstring) : jsstring :=
  [34%N] ++ quote_chars s ++ [34%N].

(** Decimal digits of [v >= 0], most significant first. *)
Fixpoint dec_digits (fuel : nat) (v : Z) : jsstring :=
  match fuel with
  | O => []
  | S f =>
      (if v <? 10 then [] else dec_digits f (v / 10))
      ++ [Z.to_N (48 + v mod 10)]
  end.

(** [Number::toString] of an integer below 10^21 in magnitude: its decimal
    digits, after a minus sign when negative. *)
Definition Number_toString (x : Z) : jsstring :=
  if x <? 0 then 45%N :: dec_digits (S (Z.to_nat (Z.log2 (- x)))) (- x)
  else dec_digits (S (Z.to_nat (Z.log2 x))) x.

Definition category_name (c : Category) : jsstring :=
  match c with
  | work => js "work"
  | personal => js "personal"
  | shopping => js "shopping"
  | health => js "health"
  | other => js "other"
  end.

Definition priority_name (p : Priority) : jsstring :=
  match p with
  | low => js "low"
  | medium => js "medium"
  | high => js "high"
  end.

(** [SerializeJSONProperty] of a [dueDate]: a [Date] has a [toJSON] method,
    which gives [toISOString()] for a finite time value and [null] for an
    Invalid Date. *)
Definition stringify_due (d : DueDate) : jsstring :=
  match d with
  | DateObj (Some t) => QuoteJSONString (toISOString t)
  | DateObj None => js "null"
  | DateStr s => QuoteJSONString s
  | DateNull => js "null"
  end.

(** [JSON.stringify] of one task: the properties in creation order; a
    property whose value is [undefined] is left out. *)
Definition stringify_todo (t : Todo) : jsstring :=
  js "{" ++ QuoteJSONString (js "id") ++ js ":" ++ Number_toString (id t)
  ++ js "," ++ QuoteJSONString (js "text") ++ js ":" ++ QuoteJSONString (text t)
  ++ js "," ++ QuoteJSONString (js "completed") ++ js ":"
  ++ (if completed t then js "true" else js "false")
  ++ js "," ++ QuoteJSONString (js "category") ++ js ":"
  ++ QuoteJSONString (category_name (category t))
  ++ js "," ++ QuoteJSONString (js "priority") ++ js ":"
  ++ QuoteJSONString (priority_name (priority t))
  ++ match dueDate t with
     | Some d => js "," ++ QuoteJSONString (js "dueDate") ++ js ":" ++ stringify_due d
     | None => []
     end
  ++ js "}".

Fixpoint stringify_elements (l : list Todo) : jsstring :=
  match l with
  | [] => []
  | [t] => stringify_todo t
  | t :: l' => stringify_todo t ++ js "," ++ stringify_elements l'
  end.

(** [JSON.stringify(todos)] *)
Definition JSON_stringify (l : list Todo) : jsstring :=
  js "[" ++ stringify_elements l ++ js "]".

Definition is_json_ws (c : N) : bool :=
  ((c =? 9) || (c =? 10) || (c =? 13) || (c =? 32))%N.

Fixpoint skip_ws (s : jsstring) : jsstring :=
  match s with
  | c :: s' => if is_json_ws c then skip_ws s' else s
  | [] => []
  end.

Definition hex_val (c : N) : option Z :=
  if ((48 <=? c) && (c <=? 57))%N then Some (Z.of_N c - 48)
  else if ((97 <=? c) && (c <=? 102))%N then Some (Z.of_N c - 87)
  else if ((65 <=? c) && (c <=? 70))%N then Some (Z.of_N c - 55)
  else None.

(** The character a single-letter escape stands for. *)
Definition unescape (e : N) : option N :=
  if (e =? 34)%N then Some 34%N
  else if (e =? 92)%N then Some 92%N
  else if (e =? 47)%N then Some 47%N
  else if (e =? 98)%N then Some 8%N
  else if (e =? 102)%N then Some 12%N
  else if (e =? 110)%N then Some 10%N
  else if (e =? 114)%N then Some 13%N
  else if (e =? 116)%N then Some 9%N
  else None.

(** Reads a string after its opening quote, up to the closing one. *)
Fixpoint parse_chars (s : jsstring) : option (jsstring * jsstring) :=
  match s with
  | [] => None
  | c :: s' =>
      if (c =? 34)%N then Some ([], s')
      else if (c =? 92)%N then
        match s' with
        | e :: s'' =>
            if (e =? 117)%N then
              match s'' with
              | h1 :: h2 :: h3 :: h4 :: s3 =>
                  a <- hex_val h1 ;; b <- hex_val h2 ;;
                  c <- hex_val h3 ;; d <- hex_val h4 ;;
                  '(r, rest) <- parse_chars s3 ;;
                  Some (Z.to_N (((a * 16 + b) * 16 + c) * 16 + d) :: r, rest)
              | _ => None
              end
            else
              u <- unescape e ;;
              '(r, rest) <- parse_chars s'' ;;
              Some (u :: r, rest)
        | [] => None
        end
      else if (c <? 32)%N then None
      else '(r, rest) <- parse_chars s' ;; Some (c :: r, rest)
  end.

(** Reads decimal digits while there are some: the value continued from
    [acc], how many were read on top of [n], and the rest. *)
Fixpoint read_digits (acc n : Z) (s : jsstring) : Z * Z * jsstring :=
  match s with
  | c :: s' =>
      match digit c with
      | Some d => read_digits (10 * acc + d) (n + 1) s'
      | None => (acc, n, s)
      end
  | [] => (acc, n, s)
  end.

Definition parse_fraction (ip : Z) (s : jsstring) : option (Z * Z * jsstring) :=
  match s with
  | c :: s' =>
      if (c =? 46)%N then
        let '(m, n, r) := read_digits ip 0 s' in
        if n =? 0 then None else Some (m, n, r)
      else Some (ip, 0, s)
  | [] => Some (ip, 0, s)
  end.

Definition parse_sign (s : jsstring) : Z * jsstring :=
  match s with
  | c :: s' =>
      if (c =? 43)%N then (1, s') else if (c =? 45)%N then (-1, s') else (1, s)
  | [] => (1, s)
  end.

Definition parse_exponent (s : jsstring) : option (Z * jsstring) :=
  match s with
  | c :: s' =>
      if ((c =? 101) || (c =? 69))%N then
        let '(sg, s1) := parse_sign s' in
        let '(e, k, r) := read_digits 0 0 s1 in
        if k =? 0 then None else Some (sg * e, r)
      else Some (0, s)
  | [] => Some (0, s)
  end.

(** A number literal: optional minus, an integer part without a leading
    zero, an optional fraction, an optional exponent. *)
Definition parse_number (s : jsstring) : option (json * jsstring) :=
  let '(neg, s) :=
    match s with
    | c :: s' => if (c =? 45)%N then (true, s') else (false, s)
    | [] => (false, s)
    end in
  match s with
  | [] => None
  | c :: s1 =>
      d0 <- digit c ;;
      let '(ip, _, s2) := if d0 =? 0 then (0, 0, s1) else read_digits d0 0 s1 in
      '(m, n, s3) <- parse_fraction ip s2 ;;
      '(e, rest) <- parse_exponent s3 ;;
      Some (JNum (if neg then - m else m) (e - n), rest)
  end.

(** Reads the code units of [w]. *)
Fixpoint expect_word (w s : jsstring) : option jsstring :=
  match w with
  | [] => Some s
  | c :: w' => s' <- expect c s ;; expect_word w' s'
  end.

(** [CreateDataProperty]: an existing key keeps its place and takes the new
    value, a new key goes to the end. *)
Fixpoint obj_set (k : jsstring) (v : json) (l : list (jsstring * json)) :
  list (jsstring * json) :=
  match l with
  | [] => [(k, v)]
  | (k', v') :: l' =>
      if jsstring_eqb k' k then (k, v) :: l' else (k', v') :: obj_set k v l'
  end.

(** The recursive descent of [JSON.parse].  [fuel] bounds the number of
    nested calls.  A call that reads no code unit itself (the first value
    of an array) follows one that read the opening bracket or a comma, so
    twice the length of the text is always enough. *)
Fixpoint parse_value (fuel : nat) (s : jsstring) {struct fuel} :
  option (json * jsstring) :=
  match fuel with
  | O => None
  | S f =>
      match skip_ws s with
      | [] => None
      | c :: s1 =>
          if (c =? 123)%N then
            match skip_ws s1 with
            | d :: s2 =>
                if (d =? 125)%N then Some (JObj [], s2)
                else '(l, r) <- parse_members f [] s1 ;; Some (JObj l, r)
            | [] => None
            end
          else if (c =? 91)%N then
            match skip_ws s1 with
            | d :: s2 =>
                if (d =? 93)%N then Some (JArr [], s2)
                else '(l, r) <- parse_elements f s1 ;; Some (JArr l, r)
            | [] => None
            end
          else if (c =? 34)%N then
            '(str, r) <- parse_chars s1 ;; Some (JStr str, r)
          else if (c =? 116)%N then
            r <- expect_word (js "rue") s1 ;; Some (JBool true, r)
          else if (c =? 102)%N then
            r <- expect_word (js "alse") s1 ;; Some (JBool false, r)
          else if (c =? 110)%N then
            r <- expect_word (js "ull") s1 ;; Some (JNull, r)
          else parse_number (c :: s1)
      end
  end
with parse_elements (fuel : nat) (s : jsstring) {struct fuel} :
  option (list json * jsstring) :=
  match fuel with
  | O => None
  | S f =>
      '(v, r) <- parse_value f s ;;
      match skip_ws r with
      | c :: r1 =>
          if (c =? 44)%N then
            '(l, r2) <- parse_elements f r1 ;; Some (v :: l, r2)
          else if (c =? 93)%N then Some ([v], r1)
          else None
      | [] => None
      end
  end
with parse_members (fuel : nat) (acc : list (jsstring * json)) (s : jsstring)
  {struct fuel} : option (list (jsstring * json) * jsstring) :=
  match fuel with
  | O => None
  | S f =>
      match skip_ws s with
      | q :: s1 =>
          if (q =? 34)%N then
            '(k, r) <- parse_chars s1 ;;
            r1 <- expect 58%N (skip_ws r) ;;
            '(v, r2) <- parse_value f r1 ;;
            match skip_ws r2 with
            | c :: r3 =>
                if (c =? 44)%N then parse_members f (obj_set k v acc) r3
                else if (c =? 125)%N then Some (obj_set k v acc, r3)
                else None
            | [] => None
            end
          else None
      | [] => None
      end
  end.

(** [JSON.parse(text)]: one value, with nothing but white space after it.
    [None] stands for the [SyntaxError] the engine throws. *)
Definition JSON_parse (text : jsstring) : option json :=
  '(v, r) <- parse_value (S (2 * length text)) text ;;
  match skip_ws r with
  | [] => Some v
  | _ :: _ => None
  end.

(** ** Reading a parsed value at the type [Todo[]] *)

(** [setTodos(JSON.parse(saved))] stores whatever was parsed; the
    annotation [useState<Todo[]>] is not checked at run time.  The
    functions below say which parsed values are task lists, and which
    list each one is. *)

Fixpoint lookup (k : jsstring) (l : list (jsstring * json)) : option json :=
  match l with
  | [] => None
  | (k', v) :: l' => if jsstring_eqb k' k then Some v else lookup k l'
  end.

(** The largest magnitude below which every integer is a double. *)
Definition maxSafe : Z := 9007199254740992.

(** The integer a number literal denotes, if it is one that a double holds
    exactly. *)
Definition json_int (m e : Z) : option Z :=
  v <- (if 0 <=? e then Some (m * 10 ^ e)
        else if m mod 10 ^ (- e) =? 0 then Some (m / 10 ^ (- e)) else None) ;;
  if (- maxSafe <=? v) && (v <=? maxSafe) then Some v else None.

Definition as_category (v : json) : option Category :=
  match v with
  | JStr s =>
      find (fun c => jsstring_eqb s (category_name c))
           [work; personal; shopping; health; other]
  | _ => None
  end.

Definition as_priority (v : json) : option Priority :=
  match v with
  | JStr s => find (fun p => jsstring_eqb s (priority_name p)) [low; medium; high]
  | _ => None
  end.

Definition as_due (v : option json) : option (option DueDate) :=
  match v with
  | None => Some None
  | Some JNull => Some (Some DateNull)
  | Some (JStr s) => Some (Some (DateStr s))
  | Some _ => None
  end.

Definition as_todo (v : json) : option Todo :=
  match v with
  | JObj l =>
      i <- match lookup (js "id") l with
           | Some (JNum m e) => json_int m e
           | _ => None
           end ;;
      t <- match lookup (js "text") l with Some (JStr s) => Some s | _ => None end ;;
      c <- match lookup (js "completed") l with Some (JBool b) => Some b | _ => None end ;;
      cat <- bind (lookup (js "category") l) as_category ;;
      pri <- bind (lookup (js "priority") l) as_priority ;;
      due <- as_due (lookup (js "dueDate") l) ;;
      Some (mkTodo i t c cat pri due)
  | _ => None
  end.

Fixpoint traverse {A B : Type} (f : A -> option B) (l : list A) : option (list B) :=
  match l with
  | [] => Some []
  | a :: l' => b <- f a ;; bs <- traverse f l' ;; Some (b :: bs)
  end.

Definition as_todos (v : json) : option (list Todo) :=
  match v with
  | JArr l => traverse as_todo l
  | _ => None
  end.

(** ** Persistence *)

(** The second effect: after a render in which [todos] changed, the whole
    list is written under the key ["todos"].  [save] is the text written. *)
Definition save (st : AppState) : jsstring := JSON_stringify (todos st).

(** How the first effect, run once after the first render, ends. *)
Inductive LoadOutcome :=
| Loaded (st : AppState)
    (* it returned and left the state [st] *)
| LoadedUntyped (v : json)
    (* it returned after [setTodos(v)] with a [v] that is not a task list *)
| ThrewSyntaxError.
    (* [JSON.parse] threw and nothing caught it *)

(** [saved] is what [localStorage.getItem('todos')] gave: [None] is [null]. *)
Definition load (saved : option jsstring) (st : AppState) : LoadOutcome :=
  match saved with
  | Some s =>
      if string_truthy s then
        match JSON_parse s with
        | Some v =>
            match as_todos v with
            | Some l => Loaded (setTodos l st)
            | None => LoadedUntyped v
            end
        | None => ThrewSyntaxError
        end
      else Loaded st
  | None => Loaded st
  end.

(** ** The task store *)

(** [{ ...todo, completed: !todo.completed }] *)
Definition flip (todo : Todo) : Todo :=
  mkTodo (id todo) (text todo) (negb (completed todo)) (category todo)
         (priority todo) (dueDate todo).

Definition toggleTodo (i : Z) (st : AppState) : AppState :=
  setTodos (map (fun todo => if id todo =? i then flip todo else todo) (todos st)) st.

(** Whether [toggleTodo] launches the confetti: the first task with that
    id exists and is not completed yet. *)
Definition toggle_celebrates (i : Z) (st : AppState) : bool :=
  match find (fun t => id t =? i) (todos st) with
  | Some todo => negb (completed todo)
  | None => false
  end.

Definition deleteTodo (i : Z) (st : AppState) : AppState :=
  setTodos (filter (fun todo => negb (id todo =? i)) (todos st)) st.

(** ** Sorting *)

(** [SortCompare] with a comparator: a NaN result counts as +0. *)
Definition SortCompare {A : Type} (comparefn : A -> A -> number) (x y : A) : Z :=
  match comparefn x y with
  | Some v => v
  | None => 0
  end.

Fixpoint insert_sorted {A : Type} (comparefn : A -> A -> number) (x : A)
  (l : list A) : list A :=
  match l with
  | [] => [x]
  | y :: l' =>
      if 0 <? SortCompare comparefn x y then y :: insert_sorted comparefn x l'
      else x :: l
  end.

(** [Array.prototype.sort].  ECMAScript fixes the result, as that of a
    stable sort, when the comparator is consistent on the elements, and
    leaves the order to the implementation when it is not.  This is the
    stable insertion sort, which puts an element after the leading elements
    that the comparator places strictly before it.  For a list without
    repetitions and a comparator that does not contradict itself on a pair,
    it returns the stable sort whenever there is one ([stable_sort_unique]
    below); otherwise it returns one of the orders that an engine may
    choose. *)
Definition sort {A : Type} (comparefn : A -> A -> number) (l : list A) : list A :=
  fold_right (insert_sorted comparefn) [] l.

Definition priorityOrder (p : Priority) : Z :=
  match p with
  | high => 0
  | medium => 1
  | low => 2
  end.

(** ** The three tasks of the ordering example *)

(** A: low priority, due 2024-03-01; B: high priority, due 2024-03-05;
    C: high priority, no due date.  The due dates are the [Date] objects
    that [new Date] builds from the text of the date input. *)
Definition task_A : Todo :=
  mkTodo 1 (js "A") false other low (Some (DateObj (Some 1709251200000))).

Definition task_B : Todo :=
  mkTodo 2 (js "B") false other high (Some (DateObj (Some 1709596800000))).

Definition task_C : Todo := mkTodo 3 (js "C") false other high None.

(** D: high priority, due 2024-03-01.  With B and C it makes a tier on
    which the comparator is not consistent. *)
Definition task_D : Todo :=
  mkTodo 4 (js "D") false other high (Some (DateObj (Some 1709251200000))).

(** ** An engine to run the program with *)

(** Lower-casing of the ASCII letters; the other code units are kept. *)
Definition ascii_toLowerCase (s : jsstring) : jsstring :=
  map (fun c => if ((65 <=? c) && (c <=? 90))%N then (c + 32)%N else c) s.

(** An engine that reads no date string beyond the two shapes of the
    date-time string format modelled above. *)
Definition strict_Date_parse : jsstring -> number := fun _ => None.

(** The short month names of date-fns in English. *)
Definition month_name (m : Z) : jsstring :=
  nth (Z.to_nat (m - 1))
      [js "Jan"; js "Feb"; js "Mar"; js "Apr"; js "May"; js "Jun";
       js "Jul"; js "Aug"; js "Sep"; js "Oct"; js "Nov"; js "Dec"] [].

(** [format(date, 'MMM d')] in a browser whose time zone is UTC. *)
Definition format_MMM_d_UTC (t : Z) : jsstring :=
  let '(_, m, d) := civil_from_days (t / msPerDay) in
  month_name m ++ js " " ++ Number_toString d.

Section Engine.

(** What the engine does with a date string that is outside the two shapes
    above, names a day its month does not have or writes the year 0 as
    -000000: ECMAScript leaves it to the implementation. *)
Variable Date_parse_impl : jsstring -> number.

(** [String.prototype.toLowerCase], which follows the Unicode case
    mappings of the engine. *)
Variable toLowerCase : jsstring -> jsstring.

(** Lower-casing the empty string gives the empty string. *)
Hypothesis toLowerCase_empty : toLowerCase [] = [].

(** The time value of every [Date] lies in the range of [TimeClip], also
    when the engine parsed the string its own way. *)
Hypothesis Date_parse_impl_clipped :
  forall s t, Date_parse_impl s = Some t -> - maxTime <= t <= maxTime.

Set Default Proof Using "Type".

(** [Date.parse] *)
Definition Date_parse (s : jsstring) : number :=
  match iso_fields s with
  | Some f =>
      if f_negzero f then Date_parse_impl s
      else if fields_in_bounds f then
        if fields_exact f then TimeClip (fields_time f) else Date_parse_impl s
      else None
  | None => Date_parse_impl s
  end.

(** [new Date(todo.dueDate).getTime()]: a [Date] argument gives its own
    time value, a string is parsed. *)
Definition due_getTime (d : option DueDate) : number :=
  match d with
  | Some (DateObj tv) => tv
  | Some (DateStr s) => Date_parse s
  | Some DateNull => Some 0       (* [new Date(null)] is the epoch *)
  | None => None                  (* [new Date(undefined)] is invalid *)
  end.

Definition handleSubmit (now : Z) (st : AppState) : AppState :=
  if negb (jsstring_eqb (trim (inputValue st)) []) then
    let newTodo :=
      mkTodo now (inputValue st) false (selectedCategory st) (selectedPriority st)
             (if string_truthy (selectedDate st)
              then Some (DateObj (Date_parse (selectedDate st)))
              else None) in
    setSelectedDate [] (setInputValue [] (setTodos (todos st ++ [newTodo]) st))
  else st.

(** The comparator given to [sort]. *)
Definition compareTodos (a b : Todo) : number :=
  let priorityDiff := priorityOrder (priority a) - priorityOrder (priority b) in
  if negb (priorityDiff =? 0) then Some priorityDiff
  else if due_truthy (dueDate a) && due_truthy (dueDate b) then
    num_sub (due_getTime (dueDate a)) (due_getTime (dueDate b))
  else Some 0.

Definition matchesSearch (term : jsstring) (todo : Todo) : bool :=
  includes (toLowerCase (text todo)) (toLowerCase term).

Definition matchesStatus (flt : Filter) (todo : Todo) : bool :=
  match flt with
  | active => negb (completed todo)
  | completed_only => completed todo
  | all => true
  end.

(** The view pipeline: text filter, status filter, sort. *)
Definition view (tasks : list Todo) (term : jsstring) (flt : Filter) : list Todo :=
  sort compareTodos (filter (matchesStatus flt) (filter (matchesSearch term) tasks)).

Definition filteredTodos (st : AppState) : list Todo :=
  view (todos st) (searchTerm st) (statusFilter st).

(** ** Sessions *)

(** What the user does, one event per handler call. *)
Inductive Event :=
| TypeText (s : jsstring)
| PickCategory (c : Category)
| PickPriority (p : Priority)
| PickDate (s : jsstring)
| TypeSearch (s : jsstring)
| PickFilter (f : Filter)
| Submit (now : Z)              (* [now] is what [Date.now()] returns *)
| Toggle (i : Z)
| Delete (i : Z).

Definition step (st : AppState) (ev : Event) : AppState :=
  match ev with
  | TypeText s => setInputValue s st
  | PickCategory c => setSelectedCategory c st
  | PickPriority p => setSelectedPriority p st
  | PickDate s => setSelectedDate s st
  | TypeSearch s => setSearchTerm s st
  | PickFilter f => setStatusFilter f st
  | Submit now => handleSubmit now st
  | Toggle i => toggleTodo i st
  | Delete i => deleteTodo i st
  end.

(** The state after the events [evs] of a session that the load at mount
    left in the state [st]: the initial state when nothing is stored, the
    state that [load] returned otherwise. *)
Definition run (evs : list Event) (st : AppState) : AppState :=
  fold_left step evs st.


(** ** Progress *)

(** [todos.filter(todo => todo.completed).length], the count that the
    progress bar divides by the number of tasks. *)
Definition completedCount (st : AppState) : nat :=
  length (filter completed (todos st)).

(** ** The rendered list *)

(** [format(new Date(v), 'MMM d')] of date-fns.  For a valid date it gives
    the short name of the month and the day of the month in the time zone
    of the browser: [format_MMM_d] is that text for a time value.  For an
    Invalid Date it throws a [RangeError]; [None] stands for that
    exception. *)
Definition format (format_MMM_d : Z -> jsstring) (tv : number) : option jsstring :=
  match tv with
  | Some t => Some (format_MMM_d t)
  | None => None
  end.

(** The colours of the priority badge. *)
Inductive Badge := red | yellow | green.

(** What one list item shows: its React key, the state of the checkbox,
    the text, the category and priority labels, the colour of the priority
    badge and, when the task has a due date, the text after "Due:". *)
Record Row := mkRow {
  key : Z;
  checked : bool;
  rowText : jsstring;
  rowCategory : Category;
  rowPriority : Priority;
  badge : Badge;
  due : option jsstring
}.

Definition renderRow (format_MMM_d : Z -> jsstring) (todo : Todo) : option Row :=
  d <- (if due_truthy (dueDate todo)
        then l <- format format_MMM_d (due_getTime (dueDate todo)) ;; Some (Some l)
        else Some None) ;;
  Some (mkRow (id todo) (completed todo) (text todo) (category todo)
              (priority todo)
              (match priority todo with
               | high => red
               | medium => yellow
               | low => green
               end)
              d).

(** The list and whether the "No tasks yet!" message stands under it. *)
Record Screen := mkScreen {
  rows : list Row;
  emptyMessage : bool
}.

(** The list part of what [App] returns; [None] when rendering a row
    throws. *)
Definition render (format_MMM_d : Z -> jsstring) (st : AppState) : option Screen :=
  l <- traverse (renderRow format_MMM_d) (filteredTodos st) ;;
  Some (mkScreen l (length (filteredTodos st) =? 0)%nat).

(** ** Vocabulary of the properties *)

(** What [toggleTodo i] may do to one task: the task that has the id [i]
    keeps every field but [completed], which is negated; any other task is
    the same task. *)
Definition toggled_from (i : Z) (t t' : Todo) : Prop :=
  id t' = id t /\ text t' = text t /\ category t' = category t
  /\ priority t' = priority t /\ dueDate t' = dueDate t
  /\ (id t = i -> completed t' = negb (completed t))
  /\ (id t <> i -> t' = t).

(** [subseq l' l]: [l'] is [l] with some elements left out, the others in
    the same order. *)
Inductive subseq {A : Type} : list A -> list A -> Prop :=
| subseq_nil : subseq [] []
| subseq_keep x l' l : subseq l' l -> subseq (x :: l') (x :: l)
| subseq_drop x l' l : subseq l' l -> subseq l' (x :: l).

(** Neighbours never compare "greater": the first is not placed after the
    second. *)
Fixpoint in_order {A : Type} (cmp : A -> A -> number) (l : list A) : Prop :=
  match l with
  | x :: ((y :: _) as l') => SortCompare cmp x y <= 0 /\ in_order cmp l'
  | _ => True
  end.

(** The clock readings of the submits of a session, in order. *)
Fixpoint submit_times (evs : list Event) : list Z :=
  match evs with
  | [] => []
  | Submit now :: evs' => now :: submit_times evs'
  | _ :: evs' => submit_times evs'
  end.

Definition ids (st : AppState) : list Z := map id (todos st).

(** The text [toISOString] prints, with its punctuation spelled out. *)
Definition iso_text (y m d h mi s ms : Z) : jsstring :=
  year_text y ++ 45%N :: pad 2 m ++ 45%N :: pad 2 d ++ 84%N :: pad 2 h
  ++ 58%N :: pad 2 mi ++ 58%N :: pad 2 s ++ 46%N :: pad 3 ms ++ [90%N].

(** The value [JSON.stringify] serializes a [dueDate] as. *)
Definition json_of_due (d : DueDate) : json :=
  match d with
  | DateObj (Some t) => JStr (toISOString t)
  | DateObj None => JNull
  | DateStr s => JStr s
  | DateNull => JNull
  end.

(** The object [JSON.parse] builds from the text of a task. *)
Definition json_of_todo (t : Todo) : json :=
  JObj ([(js "id", JNum (id t) 0); (js "text", JStr (text t));
         (js "completed", JBool (completed t));
         (js "category", JStr (category_name (category t)));
         (js "priority", JStr (priority_name (priority t)))]
        ++ match dueDate t with
           | Some d => [(js "dueDate", json_of_due d)]
           | None => []
           end).

(** The property [dueDate] of a task after a save and a load: a [Date]
    comes back as the string [toISOString] printed for it, an Invalid Date
    as [null]; a string, [null] and [undefined] come back as they were. *)
Definition reload_due (d : option DueDate) : option DueDate :=
  match d with
  | Some (DateObj (Some t)) => Some (DateStr (toISOString t))
  | Some (DateObj None) => Some DateNull
  | _ => d
  end.

Definition reload (t : Todo) : Todo :=
  mkTodo (id t) (text t) (completed t) (category t) (priority t)
         (reload_due (dueDate t)).

(** An id that a double holds exactly. *)
Definition id_safe (i : Z) : Prop := - maxSafe <= i <= maxSafe.

(** The time value of a [Date] object is finite only within the range of
    [TimeClip]. *)
Definition due_clipped (d : option DueDate) : Prop :=
  match d with
  | Some (DateObj (Some t)) => - maxTime <= t <= maxTime
  | _ => True
  end.

(** A task as the run time can hold it. *)
Definition storable (t : Todo) : Prop := id_safe (id t) /\ due_clipped (dueDate t).



(** The pairs of elements of a list in which the first stands before the
    second. *)
Fixpoint ordered_pairs {A : Type} (l : list A) : list (A * A) :=
  match l with
  | [] => []
  | x :: l' => map (pair x) l' ++ ordered_pairs l'
  end.

Definition before {A : Type} (x y : A) (l : list A) : Prop :=
  In (x, y) (ordered_pairs l).

(** The contract of [Array.prototype.sort] for a list [l] and its result
    [l']: the same elements; no element stands before one that the
    comparator places strictly before it; two elements that compare equal
    keep the order they had in [l]. *)
Definition stable_sort_of {A : Type} (cmp : A -> A -> number) (l l' : list A) : Prop :=
  Permutation l l'
  /\ (forall x y, before x y l' -> SortCompare cmp x y <= 0)
  /\ (forall x y, before x y l -> SortCompare cmp x y = 0 -> before x y l').


(** Every code unit of the string is white space. *)
Definition all_white (s : jsstring) : Prop :=
  Forall (fun c => isWhiteSpace c = true) s.

(** [a] does not rank after [b] by priority. *)
Definition rank_le (a b : Todo) : Prop :=
  priorityOrder (priority a) <= priorityOrder (priority b).

Definition Priority_eqb (p q : Priority) : bool :=
  priorityOrder p =? priorityOrder q.

(** The task is of priority [p]. *)
Definition in_tier (p : Priority) (t : Todo) : bool :=
  Priority_eqb (priority t) p.

(** The task has a due date that is a valid date. *)
Definition has_due_time (t : Todo) : Prop :=
  due_truthy (dueDate t) = true /\ due_getTime (dueDate t) <> None.

(** [a] does not come after [b] by priority and then by due time. *)
Definition due_order (a b : Todo) : Prop :=
  priorityOrder (priority a) < priorityOrder (priority b)
  \/ (priority a = priority b
      /\ exists ta tb, due_getTime (dueDate a) = Some ta
                       /\ due_getTime (dueDate b) = Some tb /\ ta <= tb).

(** The task was made by [handleSubmit] in this session: its due date is
    absent or a [Date] object. *)
Definition fresh_due (t : Todo) : Prop :=
  match dueDate t with
  | None | Some (DateObj _) => True
  | _ => False
  end.


(** [b] is [a] with at most the completed flag changed. *)
Definition kept_from (a b : Todo) : Prop :=
  id b = id a /\ text b = text a /\ category b = category a
  /\ priority b = priority a /\ dueDate b = dueDate a.

(** The task is as a submit of the session [evs] makes it: its id is the
    clock reading of a submit, its text is not blank and its due date is
    absent or a [Date] object. *)
Definition created_in (evs : list Event) (t : Todo) : Prop :=
  In (id t) (submit_times evs) /\ ~ all_white (text t) /\ fresh_due t.



(** A consistent comparator for the elements of [l], as ECMAScript defines
    it for [Array.prototype.sort]: the comparator never returns NaN, calls
    every element equal to itself, and "equal", "before" and "after" are
    transitive, "equal" being symmetric. *)
Definition consistent_on {A : Type} (cmp : A -> A -> number) (l : list A) : Prop :=
  forall a b c, In a l -> In b l -> In c l ->
    cmp a b <> None
    /\ SortCompare cmp a a = 0
    /\ (SortCompare cmp a b = 0 -> SortCompare cmp b a = 0)
    /\ (SortCompare cmp a b = 0 -> SortCompare cmp b c = 0 -> SortCompare cmp a c = 0)
    /\ (SortCompare cmp a b < 0 -> SortCompare cmp b c < 0 -> SortCompare cmp a c < 0)
    /\ (0 < SortCompare cmp a b -> 0 < SortCompare cmp b c -> 0 < SortCompare cmp a c).

(** The value of the date input for a date of the years 0 to 9999:
    YYYY-MM-DD. *)
Definition date_input_value (y m d : Z) : jsstring :=
  pad 4 y ++ js "-" ++ pad 2 m ++ js "-" ++ pad 2 d.

(** * Properties *)

(** ** State bookkeeping *)

Lemma setTodos_todos st : setTodos (todos st) st = st.
Proof. destruct st; reflexivity. Qed.

Lemma todos_setTodos l st : todos (setTodos l st) = l.
Proof. reflexivity. Qed.

Lemma setTodos_setTodos l l' st : setTodos l (setTodos l' st) = setTodos l st.
Proof. reflexivity. Qed.

Lemma flip_flip t : flip (flip t) = t.
Proof. destruct t as [i s c cat p d]; unfold flip; simpl. now rewrite negb_involutive. Qed.

Lemma todos_toggleTodo i st :
  todos (toggleTodo i st) =
  map (fun todo => if id todo =? i then flip todo else todo) (todos st).
Proof. reflexivity. Qed.

Lemma todos_deleteTodo i st :
  todos (deleteTodo i st) = filter (fun todo => negb (id todo =? i)) (todos st).
Proof. reflexivity. Qed.

(** Toggling changes nothing in a list where no task has the id. *)
Lemma toggle_map_absent i l :
  ~ In i (map id l) ->
  map (fun todo => if id todo =? i then flip todo else todo) l = l.
Proof.
  induction l as [| t l IH]; simpl; intros Hn.
  - reflexivity.
  - destruct (Z.eqb_spec (id t) i) as [E | E].
    + exfalso. apply Hn. now left.
    + f_equal. apply IH. intros H. apply Hn. now right.
Qed.

Lemma delete_filter_absent i l :
  ~ In i (map id l) ->
  filter (fun todo => negb (id todo =? i)) l = l.
Proof.
  induction l as [| t l IH]; simpl; intros Hn.
  - reflexivity.
  - destruct (Z.eqb_spec (id t) i) as [E | E]; simpl.
    + exfalso. apply Hn. now left.
    + f_equal. apply IH. intros H. apply Hn. now right.
Qed.

Lemma delete_removes_id i l :
  ~ In i (map id (filter (fun todo => negb (id todo =? i)) l)).
Proof.
  intros H. apply in_map_iff in H. destruct H as [t [E H]].
  apply filter_In in H. destruct H as [_ H].
  rewrite E, Z.eqb_refl in H. discriminate.
Qed.

Lemma find_absent i l :
  ~ In i (map id l) -> find (fun t => id t =? i) l = None.
Proof.
  induction l as [| t l IH]; simpl; intros Hn.
  - reflexivity.
  - destruct (Z.eqb_spec (id t) i) as [E | E].
    + exfalso. apply Hn. now left.
    + apply IH. intros H. apply Hn. now right.
Qed.

Lemma toggle_map_twice i l :
  map (fun todo => if id todo =? i then flip todo else todo)
      (map (fun todo => if id todo =? i then flip todo else todo) l) = l.
Proof.
  induction l as [| t l IH]; simpl.
  - reflexivity.
  - rewrite IH. f_equal.
    destruct (id t =? i) eqn:E; simpl; rewrite E.
    + apply flip_flip.
    + reflexivity.
Qed.

(** ** Toggle *)

(** C6. Toggle is an involution: for every state and every id, toggling
    the same id twice in succession gives back the state it started from,
    so the [completed] flag of every task with that id, and the whole
    collection, are as they were. *)
Theorem toggle_involution (i : Z) (st : AppState) :
  toggleTodo i (toggleTodo i st) = st
  /\ todos (toggleTodo i (toggleTodo i st)) = todos st
  /\ map completed (todos (toggleTodo i (toggleTodo i st))) = map completed (todos st).
Proof.
  assert (H : toggleTodo i (toggleTodo i st) = st).
  { unfold toggleTodo. rewrite todos_setTodos, setTodos_setTodos.
    rewrite toggle_map_twice. apply setTodos_todos. }
  now rewrite H.
Qed.

(** C7. Frame property of toggle: for every state and every id (present
    in the collection or not), the collection after [toggleTodo] matches
    the one before position by position, so order and length are kept;
    a task with the id keeps its id, text, category, priority and due date
    and has [completed] negated, every other task is unchanged, and so are
    the other cells of the state. *)
Theorem toggle_frame (i : Z) (st : AppState) :
  Forall2 (toggled_from i) (todos st) (todos (toggleTodo i st))
  /\ length (todos (toggleTodo i st)) = length (todos st)
  /\ setTodos (todos st) (toggleTodo i st) = st.
Proof.
  split; [| split].
  - rewrite todos_toggleTodo.
    induction (todos st) as [| t l IH]; simpl; constructor; auto.
    unfold toggled_from.
    destruct (Z.eqb_spec (id t) i) as [E | E]; simpl; repeat split; auto;
      intros; congruence.
  - rewrite todos_toggleTodo. apply length_map.
  - destruct st; reflexivity.
Qed.

(** ** Missing entities *)

(** C8. Missing-entity operations are silent no-ops: for every state and
    every id, toggling an id right after deleting it leaves the state as
    the delete left it; and when no task has the id, toggle and delete
    both return the state unchanged and the toggle launches no confetti.
    Both handlers are total functions: there is no error outcome. *)
Theorem missing_entity_noop (i : Z) (st : AppState) :
  toggleTodo i (deleteTodo i st) = deleteTodo i st
  /\ (~ In i (map id (todos st)) ->
      toggleTodo i st = st /\ deleteTodo i st = st
      /\ toggle_celebrates i st = false).
Proof.
  split.
  - unfold toggleTodo at 1. rewrite todos_deleteTodo.
    rewrite toggle_map_absent by apply delete_removes_id.
    unfold deleteTodo. reflexivity.
  - intros Hn. repeat split.
    + unfold toggleTodo. rewrite toggle_map_absent by assumption.
      apply setTodos_todos.
    + unfold deleteTodo. rewrite delete_filter_absent by assumption.
      apply setTodos_todos.
    + unfold toggle_celebrates. now rewrite find_absent.
Qed.

(** ** Delete *)

Lemma filter_subseq {A : Type} (f : A -> bool) (l : list A) :
  subseq (filter f l) l.
Proof.
  induction l as [| x l IH]; simpl.
  - constructor.
  - destruct (f x); now constructor.
Qed.

(** C10. For every state and every id, [deleteTodo] removes every task
    whose id equals the given one (all of them when the id occurs more
    than once) and keeps every other task, in the order they had: the
    result is a subsequence of the collection, no task in it has the id,
    and around any kept task the result is the result on what stood before
    it, the task, and the result on what stood after it. *)
Theorem delete_removes_all_keeps_order (i : Z) (st : AppState) :
  subseq (todos (deleteTodo i st)) (todos st)
  /\ (forall t, In t (todos (deleteTodo i st)) <-> In t (todos st) /\ id t <> i)
  /\ ~ In i (map id (todos (deleteTodo i st)))
  /\ (forall l1 t l2, todos st = l1 ++ t :: l2 -> id t <> i ->
        todos (deleteTodo i st) =
        todos (deleteTodo i (setTodos l1 st)) ++ t
          :: todos (deleteTodo i (setTodos l2 st))).
Proof.
  rewrite todos_deleteTodo. repeat split.
  - apply filter_subseq.
  - apply filter_In in H. tauto.
  - apply filter_In in H. destruct H as [_ H].
    intros E. rewrite E, Z.eqb_refl in H. discriminate.
  - intros [H1 H2]. apply filter_In. split; [assumption |].
    destruct (Z.eqb_spec (id t) i); [contradiction | reflexivity].
  - apply delete_removes_id.
  - intros l1 t l2 E Hne. rewrite !todos_deleteTodo, !todos_setTodos, E.
    rewrite filter_app. simpl.
    destruct (Z.eqb_spec (id t) i); [contradiction | reflexivity].
Qed.

(** ** Strings *)

Lemma jsstring_eqb_eq s t : jsstring_eqb s t = true <-> s = t.
Proof.
  revert t. induction s as [| c s IH]; destruct t as [| d t]; simpl;
    try (split; [discriminate | discriminate]); try tauto.
  rewrite andb_true_iff, N.eqb_eq, IH. split.
  - intros [-> ->]. reflexivity.
  - intros E. injection E as -> ->. auto.
Qed.

Lemma jsstring_eqb_refl s : jsstring_eqb s s = true.
Proof. now apply jsstring_eqb_eq. Qed.

Lemma jsstring_eqb_nil s : jsstring_eqb s [] = true <-> s = [].
Proof. apply jsstring_eqb_eq. Qed.

Lemma includes_empty s : includes s [] = true.
Proof. destruct s; reflexivity. Qed.

(** A string whose trim is not empty is not empty itself. *)
Lemma trim_nonempty s : trim s <> [] -> s <> [].
Proof. intros H E. apply H. rewrite E. reflexivity. Qed.

(** ** Sorting *)

Lemma insert_sorted_perm {A : Type} (cmp : A -> A -> number) x l :
  Permutation (insert_sorted cmp x l) (x :: l).
Proof.
  induction l as [| y l IH]; simpl.
  - apply Permutation_refl.
  - destruct (0 <? SortCompare cmp x y).
    + rewrite IH. apply perm_swap.
    + apply Permutation_refl.
Qed.

Lemma sort_perm {A : Type} (cmp : A -> A -> number) l :
  Permutation (sort cmp l) l.
Proof.
  induction l as [| x l IH]; simpl.
  - constructor.
  - rewrite insert_sorted_perm. now constructor.
Qed.

(** The insertion sort moves no element of a list whose neighbours are
    in order. *)
Lemma sort_in_order {A : Type} (cmp : A -> A -> number) l :
  in_order cmp l -> sort cmp l = l.
Proof.
  induction l as [| x l IH]; simpl; intros H.
  - reflexivity.
  - destruct l as [| y l].
    + reflexivity.
    + destruct H as [H1 H2]. change (fold_right (insert_sorted cmp) [] (y :: l))
        with (sort cmp (y :: l)). rewrite (IH H2). simpl.
      destruct (Z.ltb_spec 0 (SortCompare cmp x y)); [lia | reflexivity].
Qed.

Lemma filter_partition_perm {A : Type} (f : A -> bool) (l : list A) :
  Permutation (filter (fun a => negb (f a)) l ++ filter f l) l.
Proof.
  induction l as [| x l IH]; simpl.
  - constructor.
  - destruct (f x); simpl.
    + apply Permutation_sym, Permutation_cons_app, Permutation_sym, IH.
    + now constructor.
Qed.

(** ** Create *)

Lemma handleSubmit_blank now st :
  trim (inputValue st) = [] -> handleSubmit now st = st.
Proof.
  intros H. unfold handleSubmit. rewrite H. reflexivity.
Qed.

Lemma handleSubmit_todos now st :
  trim (inputValue st) <> [] ->
  todos (handleSubmit now st) =
  todos st ++
  [mkTodo now (inputValue st) false (selectedCategory st) (selectedPriority st)
     (if string_truthy (selectedDate st)
      then Some (DateObj (Date_parse (selectedDate st)))
      else None)].
Proof.
  intros H. unfold handleSubmit.
  destruct (jsstring_eqb (trim (inputValue st)) []) eqn:E.
  - apply jsstring_eqb_nil in E. contradiction.
  - reflexivity.
Qed.

(** C2, amended. For every input whose trim is not empty, create appends
    exactly one task, and its text is the input as it was typed, not its
    trim: the stored text is not empty and holds a character that is not
    white space, but white space around it is kept. *)
Theorem create_stores_input_as_typed (now : Z) (st : AppState) :
  trim (inputValue st) <> [] ->
  exists t, todos (handleSubmit now st) = todos st ++ [t]
    /\ text t = inputValue st
    /\ text t <> []
    /\ trim (text t) <> []
    /\ id t = now /\ completed t = false
    /\ category t = selectedCategory st /\ priority t = selectedPriority st.
Proof.
  intros H. eexists. split; [apply (handleSubmit_todos now st H) |].
  simpl. repeat split; auto. now apply trim_nonempty.
Qed.

(** ** Identifiers *)

Lemma ids_handleSubmit now st :
  ids (handleSubmit now st) = ids st \/ ids (handleSubmit now st) = ids st ++ [now].
Proof.
  unfold ids. destruct (jsstring_eqb (trim (inputValue st)) []) eqn:E.
  - left. apply jsstring_eqb_nil in E. now rewrite handleSubmit_blank.
  - right. rewrite handleSubmit_todos.
    + now rewrite map_app.
    + intros H. rewrite H in E. discriminate.
Qed.

Lemma ids_toggleTodo i st : ids (toggleTodo i st) = ids st.
Proof.
  unfold ids. rewrite todos_toggleTodo, map_map. apply map_ext.
  intros t. now destruct (id t =? i).
Qed.

Lemma ids_deleteTodo i st : ids (deleteTodo i st) = filter (fun j => negb (j =? i)) (ids st).
Proof.
  unfold ids. rewrite todos_deleteTodo.
  induction (todos st) as [| t l IH]; simpl.
  - reflexivity.
  - destruct (id t =? i); simpl; now rewrite IH.
Qed.

Lemma NoDup_snoc (l : list Z) x : NoDup l -> ~ In x l -> NoDup (l ++ [x]).
Proof.
  intros Hl Hx. apply NoDup_app; auto.
  - repeat constructor. intros [].
  - intros y Hy [<- | []]. contradiction.
Qed.

(** One event keeps the ids distinct, provided a submit comes with a clock
    reading that no task has as its id; no event adds an id other than that
    reading. *)
Lemma step_ids ev st :
  NoDup (ids st) ->
  (forall now, ev = Submit now -> ~ In now (ids st)) ->
  NoDup (ids (step st ev))
  /\ (forall j, In j (ids (step st ev)) -> In j (ids st) \/ ev = Submit j).
Proof.
  intros Hnd Hfresh. destruct ev; simpl; try (split; [assumption | tauto]).
  - destruct (ids_handleSubmit now st) as [E | E]; rewrite E.
    + split; [assumption | tauto].
    + split.
      * apply NoDup_snoc; auto.
      * intros j Hj. apply in_app_or in Hj. destruct Hj as [Hj | [<- | []]]; auto.
  - rewrite ids_toggleTodo. split; [assumption | tauto].
  - rewrite ids_deleteTodo. split.
    + now apply NoDup_filter.
    + intros j Hj. apply filter_In in Hj. tauto.
Qed.

Lemma run_ids evs : forall st,
  NoDup (ids st) ->
  NoDup (submit_times evs) ->
  (forall now, In now (submit_times evs) -> ~ In now (ids st)) ->
  NoDup (ids (run evs st)).
Proof.
  induction evs as [| ev evs IH]; intros st Hnd Ht Hfresh; simpl.
  - assumption.
  - destruct (step_ids ev st Hnd) as [Hnd' Hin].
    { intros now ->. apply Hfresh. now left. }
    apply IH; auto.
    + destruct ev; simpl in Ht; auto. now inversion Ht.
    + intros now Hnow Hj. apply Hin in Hj. destruct Hj as [Hj | ->].
      * apply (Hfresh now); auto. destruct ev; simpl; auto.
      * simpl in Ht. inversion Ht. contradiction.
Qed.

(** C3, amended. The id of a created task is the clock reading of its
    submit.  In every state reached from the initial one by a session whose
    submits have pairwise distinct clock readings, no two tasks share an
    id; a create whose reading is the id of no task appends a task whose id
    differs from every id in the collection; toggle and delete keep ids
    distinct whenever they were. *)
Theorem ids_unique_with_distinct_clock_readings :
  (forall evs, NoDup (submit_times evs) -> NoDup (ids (run evs initialState)))
  /\ (forall now st, NoDup (ids st) -> ~ In now (ids st) ->
        NoDup (ids (handleSubmit now st)))
  /\ (forall i st, NoDup (ids st) ->
        NoDup (ids (toggleTodo i st)) /\ NoDup (ids (deleteTodo i st))).
Proof.
  split; [| split].
  - intros evs H. apply run_ids; [constructor | assumption | intros now _ []].
  - intros now st Hnd Hf.
    destruct (step_ids (Submit now) st Hnd) as [H _]; auto.
    intros n E. now injection E as <-.
  - intros i st Hnd. split.
    + now rewrite ids_toggleTodo.
    + rewrite ids_deleteTodo. now apply NoDup_filter.
Qed.

(** ** The view pipeline *)

Lemma compareTodos_priority a b :
  priority a <> priority b ->
  compareTodos a b = Some (priorityOrder (priority a) - priorityOrder (priority b))
  /\ priorityOrder (priority a) - priorityOrder (priority b) <> 0.
Proof.
  intros H. unfold compareTodos.
  destruct (priority a), (priority b); simpl; try contradiction;
    split; (reflexivity || lia).
Qed.

Lemma compareTodos_same_priority a b :
  priority a = priority b ->
  compareTodos a b =
  if due_truthy (dueDate a) && due_truthy (dueDate b)
  then num_sub (due_getTime (dueDate a)) (due_getTime (dueDate b))
  else Some 0.
Proof.
  intros H. unfold compareTodos. rewrite H, Z.sub_diag. reflexivity.
Qed.

Lemma filter_all l : filter (matchesStatus all) l = l.
Proof.
  induction l as [| t l IH]; simpl; [reflexivity | now rewrite IH].
Qed.

Lemma filter_empty_term l : filter (matchesSearch []) l = l.
Proof using toLowerCase_empty.
  induction l as [| t l IH]; simpl; [reflexivity |].
  unfold matchesSearch at 1. rewrite toLowerCase_empty, includes_empty.
  now rewrite IH.
Qed.

(** *** Any stable sort gives the order of the example *)

Lemma Permutation_three {A : Type} (a b c : A) l :
  Permutation [a; b; c] l ->
  l = [a; b; c] \/ l = [a; c; b] \/ l = [b; a; c]
  \/ l = [b; c; a] \/ l = [c; a; b] \/ l = [c; b; a].
Proof.
  intros H.
  destruct (Permutation_vs_cons_inv (Permutation_sym H)) as (l1 & l2 & ->).
  apply Permutation_cons_app_inv in H.
  apply Permutation_length_2_inv in H.
  destruct l1 as [| x [| y [| z l1]]]; cbn [app] in *;
    destruct H as [H | H]; try discriminate H;
    try (injection H as); subst; auto 10.
Qed.

Lemma before_three {A : Type} (x y a b c : A) :
  before x y [a; b; c] <-> (x, y) = (a, b) \/ (x, y) = (a, c) \/ (x, y) = (b, c).
Proof.
  unfold before. cbn [ordered_pairs map app In].
  split; intros H; repeat destruct H as [H | H]; try contradiction; auto.
Qed.

(** What the comparator says of the three tasks. *)
Lemma compare_example (A B C : Todo) :
  priority A = low -> priority B = high -> priority C = high ->
  dueDate C = None ->
  SortCompare compareTodos A B = 2 /\ SortCompare compareTodos A C = 2
  /\ SortCompare compareTodos B A = -2 /\ SortCompare compareTodos C A = -2
  /\ SortCompare compareTodos B C = 0.
Proof.
  intros HA HB HC HdC. unfold SortCompare.
  destruct (compareTodos_priority A B) as [-> _]; [congruence |].
  destruct (compareTodos_priority A C) as [-> _]; [congruence |].
  destruct (compareTodos_priority B A) as [-> _]; [congruence |].
  destruct (compareTodos_priority C A) as [-> _]; [congruence |].
  rewrite (compareTodos_same_priority B C) by congruence.
  rewrite HA, HB, HC, HdC. cbn [due_truthy]. rewrite andb_false_r.
  repeat split.
Qed.

(** Whatever algorithm the engine sorts with, as long as it returns a
    stable sort of the three tasks they come out as [B; C; A]. *)
Lemma stable_sort_of_example (A B C : Todo) :
  priority A = low -> priority B = high -> priority C = high ->
  dueDate C = None ->
  stable_sort_of compareTodos [A; B; C] [B; C; A]
  /\ forall l', stable_sort_of compareTodos [A; B; C] l' -> l' = [B; C; A].
Proof.
  intros HA HB HC HdC.
  destruct (compare_example A B C HA HB HC HdC) as (HAB & HAC & HBA & HCA & HBC).
  split.
  - split; [| split].
    + apply (Permutation_cons_app [B; C] [] A). apply Permutation_refl.
    + intros x y H. apply before_three in H.
      destruct H as [H | [H | H]]; injection H as -> ->; lia.
    + intros x y H E. apply before_three in H. apply before_three.
      destruct H as [H | [H | H]]; injection H as -> ->; [lia | lia | auto].
  - intros l' (Hperm & Hsorted & Hstable).
    apply Permutation_three in Hperm.
    destruct Hperm as [-> | [-> | [-> | [-> | [-> | ->]]]]].
    + assert (H : SortCompare compareTodos A B <= 0)
        by (apply Hsorted, before_three; auto).
      lia.
    + assert (H : SortCompare compareTodos A C <= 0)
        by (apply Hsorted, before_three; auto).
      lia.
    + assert (H : SortCompare compareTodos A C <= 0)
        by (apply Hsorted, before_three; auto).
      lia.
    + reflexivity.
    + assert (H : SortCompare compareTodos A B <= 0)
        by (apply Hsorted, before_three; auto).
      lia.
    + assert (H : before B C [C; B; A])
        by (apply Hstable; [apply before_three; auto | exact HBC]).
      apply before_three in H.
      destruct H as [H | [H | H]]; injection H; intros; congruence.
Qed.

(** C5. View pipeline ordering: for three tasks inserted in the order
    [A; B; C], where A has priority low, B and C have priority high and C
    has no due date (as for A due 2024-03-01, B due 2024-03-05), the view
    with an empty search term and the filter "all" is exactly [B; C; A];
    that list is a stable sort of [A; B; C] by the comparator, and the only
    one, so every engine whose sort is stable shows it.  The comparator is
    the difference of the priority ranks (high 0, medium 1, low 2) when the
    priorities differ.  With equal priorities and a due date on both tasks
    it is the difference of the due times, negative exactly when the first
    task is due earlier and zero exactly when both are due at the same
    time, so that of two such tasks the one due earlier is shown first; it
    is NaN, which the sort reads as equal, when one of the two dates is
    invalid; and it is 0 as soon as one of the tasks has no due date. *)
Theorem view_orders_by_priority_then_due_date :
  (forall A B C : Todo,
      priority A = low -> priority B = high -> priority C = high ->
      dueDate C = None ->
      view [A; B; C] [] all = [B; C; A]
      /\ stable_sort_of compareTodos [A; B; C] [B; C; A]
      /\ forall l', stable_sort_of compareTodos [A; B; C] l' -> l' = [B; C; A])
  /\ (priorityOrder high = 0 /\ priorityOrder medium = 1 /\ priorityOrder low = 2)
  /\ (forall a b, priority a <> priority b ->
        compareTodos a b =
        Some (priorityOrder (priority a) - priorityOrder (priority b)))
  /\ (forall a b ta tb, priority a = priority b ->
        due_truthy (dueDate a) = true -> due_truthy (dueDate b) = true ->
        due_getTime (dueDate a) = Some ta -> due_getTime (dueDate b) = Some tb ->
        (- maxSafe <= ta - tb <= maxSafe -> compareTodos a b = Some (ta - tb))
        /\ (SortCompare compareTodos a b < 0 <-> ta < tb)
        /\ (SortCompare compareTodos a b = 0 <-> ta = tb))
  /\ (forall a b ta tb, priority a = priority b ->
        dueDate a = Some (DateObj (Some ta)) ->
        dueDate b = Some (DateObj (Some tb)) -> tb < ta ->
        view [a; b] [] all = [b; a])
  /\ (forall a b, priority a = priority b ->
        due_truthy (dueDate a) = true -> due_truthy (dueDate b) = true ->
        due_getTime (dueDate a) = None \/ due_getTime (dueDate b) = None ->
        compareTodos a b = None /\ SortCompare compareTodos a b = 0)
  /\ (forall a b, priority a = priority b ->
        due_truthy (dueDate a) = false \/ due_truthy (dueDate b) = false ->
        compareTodos a b = Some 0).
Proof using toLowerCase_empty.
  split; [| split; [| split; [| split; [| split; [| split]]]]].
  - intros A B C HA HB HC HdC. split; [| now apply stable_sort_of_example].
    unfold view. rewrite filter_empty_term, filter_all.
    destruct (compare_example A B C HA HB HC HdC) as (HAB & HAC & _ & _ & HBC).
    unfold sort. cbn [fold_right insert_sorted].
    rewrite HBC. cbn [Z.ltb Z.compare insert_sorted].
    rewrite HAB. cbn [Z.ltb Z.compare insert_sorted].
    rewrite HAC. reflexivity.
  - repeat split.
  - intros a b H. now apply compareTodos_priority.
  - intros a b ta tb H Ha Hb Hta Htb.
    assert (E : compareTodos a b = Some (ta - tb)).
    { rewrite compareTodos_same_priority by assumption.
      now rewrite Ha, Hb, Hta, Htb. }
    unfold SortCompare. rewrite E. repeat split; (reflexivity || lia).
  - intros a b ta tb H Ha Hb Hlt. unfold view.
    rewrite filter_empty_term, filter_all.
    unfold sort. cbn [fold_right insert_sorted]. unfold SortCompare.
    rewrite compareTodos_same_priority by assumption. rewrite Ha, Hb.
    cbn [due_truthy andb due_getTime num_sub].
    now destruct (Z.ltb_spec 0 (ta - tb)); [| lia].
  - intros a b H Ha Hb Hd.
    assert (E : compareTodos a b = None).
    { rewrite compareTodos_same_priority by assumption. rewrite Ha, Hb. cbn [andb].
      destruct Hd as [-> | ->]; [reflexivity |].
      now destruct (due_getTime (dueDate a)). }
    split; [exact E |]. unfold SortCompare. now rewrite E.
  - intros a b H Hd. rewrite compareTodos_same_priority by assumption.
    destruct Hd as [-> | ->]; [reflexivity | now rewrite andb_false_r].
Qed.

(** C9. Status-filter partition: for every collection and every search
    term, the view under "active" holds exactly the tasks of the view under
    "all" that are not completed, the view under "completed" exactly those
    that are, the view under "all" exactly the tasks that pass the text
    filter; no task is in both the "active" and the "completed" result, and
    the two results together are the "all" result, task for task. *)
Theorem status_filter_partition (tasks : list Todo) (term : jsstring) :
  (forall t, In t (view tasks term active)
             <-> In t (view tasks term all) /\ completed t = false)
  /\ (forall t, In t (view tasks term completed_only)
                <-> In t (view tasks term all) /\ completed t = true)
  /\ (forall t, In t (view tasks term all) <-> In t (filter (matchesSearch term) tasks))
  /\ (forall t, ~ (In t (view tasks term active) /\ In t (view tasks term completed_only)))
  /\ Permutation (view tasks term active ++ view tasks term completed_only)
                 (view tasks term all).
Proof.
  assert (Hin : forall flt t, In t (view tasks term flt) <->
            In t (filter (matchesSearch term) tasks) /\ matchesStatus flt t = true).
  { intros flt t. unfold view. split.
    - intros H. apply (Permutation_in _ (sort_perm _ _)) in H.
      now apply filter_In in H.
    - intros H. apply (Permutation_in _ (Permutation_sym (sort_perm _ _))).
      now apply filter_In. }
  repeat split.
  - apply Hin in H. apply Hin. simpl. tauto.
  - apply Hin in H. destruct H as [_ H]. simpl in H. now apply negb_true_iff.
  - intros [H1 H2]. apply Hin. apply Hin in H1. simpl. split; [tauto |].
    now rewrite H2.
  - apply Hin in H. apply Hin. simpl. tauto.
  - apply Hin in H. tauto.
  - intros [H1 H2]. apply Hin. apply Hin in H1. simpl. tauto.
  - intros H. apply Hin in H. tauto.
  - intros H. apply Hin. simpl. tauto.
  - intros t [H1 H2]. apply Hin in H1. apply Hin in H2. simpl in *.
    destruct H1 as [_ H1], H2 as [_ H2]. rewrite H2 in H1. discriminate.
  - unfold view. rewrite filter_all.
    rewrite !sort_perm.
    apply (filter_partition_perm completed).
Qed.

(** ** Calendar arithmetic *)

Ltac zdiv := Z.to_euclidean_division_equations; lia.

(** Within one era the calendar date of a day number is a date that
    exists, and its day number is the one started from. *)
Lemma civil_of_doe_spec doe : 0 <= doe < 146097 ->
  let '(y, m, d) := civil_of_doe doe in
  1 <= m <= 12 /\ 1 <= d <= days_in_month y m /\ 0 <= y <= 400
  /\ days_from_civil y m d = doe - 719468.
Proof.
  intros H. unfold civil_of_doe.
  set (yoe := (doe - doe / 1460 + doe / 36524 - doe / 146096) / 365).
  set (doy := doe - (365 * yoe + yoe / 4 - yoe / 100)).
  set (mp := (5 * doy + 2) / 153).
  assert (Hy : 0 <= yoe <= 399 /\ 0 <= doy <= 365
               /\ (doy = 365 -> (yoe + 1) mod 4 = 0
                                /\ ((yoe + 1) mod 100 <> 0 \/ yoe = 399))).
  { subst doy yoe. zdiv. }
  assert (Hmp : 0 <= mp <= 11) by (subst mp; zdiv).
  assert (Hdoe : doe = 365 * yoe + yoe / 4 - yoe / 100 + doy) by (subst doy; lia).
  clearbody doy. clearbody yoe.
  set (d := doy - (153 * mp + 2) / 5 + 1).
  assert (Hd : 1 <= d <= 31 /\ (mp = 11 -> d <= 29 /\ (d = 29 -> doy = 365))
               /\ (mp = 1 \/ mp = 3 \/ mp = 6 \/ mp = 8 -> d <= 30)
               /\ doy = (153 * mp + 2) / 5 + d - 1).
  { subst d mp. zdiv. }
  clearbody d.
  destruct (Z.ltb_spec mp 10).
  - replace (mp + 3 <=? 2) with false by (symmetry; apply Z.leb_gt; lia).
    split; [lia |]. split; [| split; [lia |]].
    + unfold days_in_month.
      destruct (Z.eqb_spec (mp + 3) 2); [lia |].
      destruct (Z.eqb_spec (mp + 3) 4), (Z.eqb_spec (mp + 3) 6),
        (Z.eqb_spec (mp + 3) 9), (Z.eqb_spec (mp + 3) 11); simpl; lia.
    + unfold days_from_civil.
      replace (mp + 3 <=? 2) with false by (symmetry; apply Z.leb_gt; lia).
      replace (2 <? mp + 3) with true by (symmetry; apply Z.ltb_lt; lia).
      replace (mp + 3 - 3) with mp by lia. subst mp. zdiv.
  - replace (mp - 9 <=? 2) with true by (symmetry; apply Z.leb_le; lia).
    split; [lia |]. split; [| split; [lia |]].
    + unfold days_in_month, leap_year.
      destruct (Z.eqb_spec (mp - 9) 2).
      * assert (mp = 11) by lia.
        destruct (Z.eqb_spec ((yoe + 1) mod 4) 0),
          (Z.eqb_spec ((yoe + 1) mod 100) 0),
          (Z.eqb_spec ((yoe + 1) mod 400) 0); simpl; try lia.
        all: try (assert (d = 29 -> False) by (intros; zdiv); lia).
      * destruct (Z.eqb_spec (mp - 9) 4), (Z.eqb_spec (mp - 9) 6),
          (Z.eqb_spec (mp - 9) 9), (Z.eqb_spec (mp - 9) 11); simpl; lia.
    + unfold days_from_civil.
      replace (mp - 9 <=? 2) with true by (symmetry; apply Z.leb_le; lia).
      replace (2 <? mp - 9) with false by (symmetry; apply Z.ltb_ge; lia).
      replace (mp - 9 + 9) with mp by lia. replace (yoe + 1 - 1) with yoe by lia.
      subst mp. zdiv.
Qed.

(** Moving a date by whole eras moves its day number by as many times
    146097 days and keeps the length of its month. *)
Lemma days_from_civil_shift y m d e :
  days_from_civil (y + 400 * e) m d = days_from_civil y m d + 146097 * e.
Proof. unfold days_from_civil. destruct (m <=? 2); zdiv. Qed.

Lemma days_in_month_shift y m e : days_in_month (y + 400 * e) m = days_in_month y m.
Proof.
  unfold days_in_month, leap_year.
  replace ((y + 400 * e) mod 4) with (y mod 4) by zdiv.
  replace ((y + 400 * e) mod 100) with (y mod 100) by zdiv.
  replace ((y + 400 * e) mod 400) with (y mod 400) by zdiv.
  reflexivity.
Qed.

Lemma civil_from_days_spec z :
  let '(y, m, d) := civil_from_days z in
  1 <= m <= 12 /\ 1 <= d <= days_in_month y m
  /\ days_from_civil y m d = z
  /\ 400 * ((z + 719468) / 146097) <= y <= 400 * ((z + 719468) / 146097) + 400.
Proof.
  unfold civil_from_days.
  pose proof (civil_of_doe_spec ((z + 719468) mod 146097)) as H.
  destruct (civil_of_doe ((z + 719468) mod 146097)) as [[y m] d].
  destruct H as (Hm & Hd & Hy & Hz); [zdiv |].
  rewrite days_in_month_shift, days_from_civil_shift, Hz.
  repeat split; try lia. zdiv.
Qed.

(** ** Printing and reading a time value *)

Lemma digit_of_char d : 0 <= d <= 9 -> digit (Z.to_N (48 + d)) = Some d.
Proof.
  intros H. unfold digit.
  destruct (N.leb_spec 48 (Z.to_N (48 + d))); [| lia].
  destruct (N.leb_spec (Z.to_N (48 + d)) 57); [| lia].
  cbn [andb]. f_equal. lia.
Qed.

Lemma take_digits_pad_more n : forall v acc rest k,
  0 <= v < 10 ^ Z.of_nat n ->
  take_digits (n + k) acc (pad n v ++ rest) =
  take_digits k (acc * 10 ^ Z.of_nat n + v) rest.
Proof.
  induction n as [| n IH]; intros v acc rest k Hv.
  - cbn [pad app Nat.add]. f_equal. change (Z.of_nat 0) with 0 in Hv. lia.
  - rewrite Nat2Z.inj_succ, Z.pow_succ_r in Hv by lia.
    cbn [pad]. rewrite <- app_assoc. cbn [app].
    replace (S n + k)%nat with (n + S k)%nat by lia.
    rewrite IH by zdiv.
    cbn [take_digits]. rewrite digit_of_char by zdiv. cbn [bind].
    f_equal. rewrite Nat2Z.inj_succ, Z.pow_succ_r by lia. zdiv.
Qed.

Lemma take_digits_pad n v acc rest :
  0 <= v < 10 ^ Z.of_nat n ->
  take_digits n acc (pad n v ++ rest) = Some (acc * 10 ^ Z.of_nat n + v, rest).
Proof.
  intros H. rewrite <- (Nat.add_0_r n) at 1.
  now rewrite take_digits_pad_more.
Qed.

Lemma pad_head n v rest :
  exists c rest', pad (S n) v ++ rest = c :: rest' /\ (48 <= c)%N.
Proof.
  revert v rest. induction n as [| n IH]; intros v rest.
  - cbn [pad app]. eexists _, _. split; [reflexivity | zdiv].
  - change (pad (S (S n)) v) with (pad (S n) (v / 10) ++ [Z.to_N (48 + v mod 10)]).
    rewrite <- app_assoc. apply IH.
Qed.

Lemma take_digits_pad0 n v rest :
  0 <= v < 10 ^ Z.of_nat n ->
  take_digits n 0 (pad n v ++ rest) = Some (v, rest).
Proof. intros H. rewrite take_digits_pad by assumption. do 2 f_equal. Qed.

Lemma expect_cons c s : expect c (c :: s) = Some s.
Proof. unfold expect. now rewrite N.eqb_refl. Qed.

Lemma iso_year_print y rest :
  -999999 <= y <= 999999 ->
  iso_year (year_text y ++ rest) = Some (y, false, rest).
Proof.
  intros Hy. unfold year_text.
  destruct (Z.leb_spec 0 y) as [H0 | H0]; [destruct (Z.leb_spec y 9999) as [H1 | H1] |];
    cbn [andb].
  - destruct (pad_head 3 y rest) as (c & r & E & Hc).
    unfold iso_year. rewrite E.
    destruct (N.eqb_spec c 43); [lia |]. destruct (N.eqb_spec c 45); [lia |].
    rewrite <- E, take_digits_pad0 by (change (Z.of_nat 4) with 4; lia).
    reflexivity.
  - replace (y <? 0) with false by (symmetry; apply Z.ltb_ge; lia).
    change (iso_year (43%N :: pad 6 (Z.abs y) ++ rest) = Some (y, false, rest)).
    cbn [iso_year]. change ((43 =? 43)%N) with true. cbv iota.
    rewrite take_digits_pad0 by (change (Z.of_nat 6) with 6; lia).
    cbn [bind]. replace (Z.abs y) with y by lia. reflexivity.
  - replace (y <? 0) with true by (symmetry; apply Z.ltb_lt; lia).
    change (iso_year (45%N :: pad 6 (Z.abs y) ++ rest) = Some (y, false, rest)).
    cbn [iso_year]. change ((45 =? 43)%N) with false. change ((45 =? 45)%N) with true.
    cbv iota.
    rewrite take_digits_pad0 by (change (Z.of_nat 6) with 6; lia).
    cbn [bind].
    replace (Z.abs y =? 0) with false by (symmetry; apply Z.eqb_neq; lia).
    replace (- Z.abs y) with y by lia. reflexivity.
Qed.

Lemma iso_fields_print y m d h mi s ms :
  -999999 <= y <= 999999 ->
  0 <= m < 100 -> 0 <= d < 100 -> 0 <= h < 100 -> 0 <= mi < 100 ->
  0 <= s < 100 -> 0 <= ms < 1000 ->
  iso_fields (iso_text y m d h mi s ms) = Some (mkFields y m d h mi s ms false).
Proof.
  intros Hy Hm Hd Hh Hmi Hs Hms. unfold iso_fields, iso_text.
  rewrite iso_year_print by assumption. cbn [bind].
  repeat (rewrite expect_cons; cbn [bind]);
  repeat (rewrite take_digits_pad0 by (cbn; lia); cbn [bind];
          rewrite ?expect_cons; cbn [bind]).
  reflexivity.
Qed.

Lemma toISOString_text t :
  toISOString t =
  let '(y, m, d) := civil_from_days (t / msPerDay) in
  let ms := t mod msPerDay in
  iso_text y m d (ms / 3600000) (ms / 60000 mod 60) (ms / 1000 mod 60) (ms mod 1000).
Proof.
  unfold toISOString. destruct (civil_from_days (t / msPerDay)) as [[y m] d].
  reflexivity.
Qed.

Lemma days_in_month_le y m : days_in_month y m <= 31.
Proof.
  unfold days_in_month.
  destruct (m =? 2); [destruct (leap_year y); lia |].
  destruct ((m =? 4) || (m =? 6) || (m =? 9) || (m =? 11)); lia.
Qed.

(** Reading back what [toISOString] printed gives the time value. *)
Lemma Date_parse_toISOString t :
  - maxTime <= t <= maxTime -> Date_parse (toISOString t) = Some t.
Proof.
  intros Ht. unfold maxTime in Ht. rewrite toISOString_text.
  pose proof (civil_from_days_spec (t / msPerDay)) as H.
  destruct (civil_from_days (t / msPerDay)) as [[y m] d].
  destruct H as (Hm & Hd & Hz & Hy).
  pose proof (days_in_month_le y m) as Hle.
  unfold msPerDay in *.
  cbv zeta. unfold Date_parse.
  rewrite iso_fields_print by zdiv.
  assert (Hb : fields_in_bounds
                 (mkFields y m d (t mod 86400000 / 3600000)
                    (t mod 86400000 / 60000 mod 60)
                    (t mod 86400000 / 1000 mod 60)
                    (t mod 86400000 mod 1000) false) = true).
  { unfold fields_in_bounds. cbn [f_month f_day f_hour f_minute f_second].
    repeat (apply andb_true_intro; split); apply Z.leb_le; zdiv. }
  assert (He : fields_exact
                 (mkFields y m d (t mod 86400000 / 3600000)
                    (t mod 86400000 / 60000 mod 60)
                    (t mod 86400000 / 1000 mod 60)
                    (t mod 86400000 mod 1000) false) = true).
  { unfold fields_exact. cbn [f_year f_month f_day f_hour].
    apply andb_true_intro; split; apply Z.leb_le; [lia | zdiv]. }
  cbn [f_negzero]. rewrite Hb, He. unfold fields_time.
  cbn [f_year f_month f_day f_hour f_minute f_second f_ms]. rewrite Hz.
  unfold msPerDay.
  replace (_ + _ + _) with t by zdiv.
  unfold TimeClip, maxTime.
  rewrite !(proj2 (Z.leb_le _ _)) by lia. reflexivity.
Qed.

(** ** Quoting and reading a string *)

Lemma hex_val_char v : 0 <= v < 16 -> hex_val (hex_char v) = Some v.
Proof.
  intros H. unfold hex_val, hex_char.
  destruct (Z.ltb_spec v 10).
  - destruct (N.leb_spec 48 (Z.to_N (48 + v))); [| lia].
    destruct (N.leb_spec (Z.to_N (48 + v)) 57); [| lia].
    cbn [andb]. f_equal. lia.
  - destruct (N.leb_spec 48 (Z.to_N (87 + v))); [| lia].
    destruct (N.leb_spec (Z.to_N (87 + v)) 57); [lia |].
    destruct (N.leb_spec 97 (Z.to_N (87 + v))); [| lia].
    destruct (N.leb_spec (Z.to_N (87 + v)) 102); [| lia].
    cbn [andb]. f_equal. lia.
Qed.

Lemma parse_chars_escape_u c tail :
  (c < 65536)%N ->
  parse_chars (escape_u c ++ tail) =
  '(r, rest) <- parse_chars tail ;; Some (c :: r, rest).
Proof.
  intros Hc. unfold escape_u.
  change (js "\u") with [92%N; 117%N]. cbn [app parse_chars].
  change ((92 =? 34)%N) with false. change ((92 =? 92)%N) with true.
  change ((117 =? 117)%N) with true. cbv iota.
  rewrite !hex_val_char by zdiv. cbn [bind].
  replace (Z.to_N _) with c by zdiv. reflexivity.
Qed.

Lemma parse_chars_literal c tail :
  c <> 34%N -> c <> 92%N -> (32 <= c)%N ->
  parse_chars (c :: tail) = '(r, rest) <- parse_chars tail ;; Some (c :: r, rest).
Proof.
  intros H1 H2 H3. cbn [parse_chars].
  destruct (N.eqb_spec c 34); [contradiction |].
  destruct (N.eqb_spec c 92); [contradiction |].
  destruct (N.ltb_spec c 32); [lia | reflexivity].
Qed.

Lemma parse_chars_quote_unit c tail :
  parse_chars (quote_unit c ++ tail) =
  '(r, rest) <- parse_chars tail ;; Some (c :: r, rest).
Proof.
  unfold quote_unit.
  destruct (N.eqb_spec c 8) as [-> | ?]; [reflexivity |].
  destruct (N.eqb_spec c 9) as [-> | ?]; [reflexivity |].
  destruct (N.eqb_spec c 10) as [-> | ?]; [reflexivity |].
  destruct (N.eqb_spec c 12) as [-> | ?]; [reflexivity |].
  destruct (N.eqb_spec c 13) as [-> | ?]; [reflexivity |].
  destruct (N.eqb_spec c 34) as [-> | ?]; [reflexivity |].
  destruct (N.eqb_spec c 92) as [-> | ?]; [reflexivity |].
  destruct (N.ltb_spec c 32).
  - apply parse_chars_escape_u. lia.
  - now apply parse_chars_literal.
Qed.

Lemma high_surrogate_range c : is_high_surrogate c = true -> (55296 <= c <= 56319)%N.
Proof.
  unfold is_high_surrogate. rewrite andb_true_iff, !N.leb_le. tauto.
Qed.

Lemma low_surrogate_range c : is_low_surrogate c = true -> (56320 <= c <= 57343)%N.
Proof.
  unfold is_low_surrogate. rewrite andb_true_iff, !N.leb_le. tauto.
Qed.

Lemma parse_chars_quote_bounded n : forall s rest,
  (length s <= n)%nat ->
  parse_chars (quote_chars s ++ 34%N :: rest) = Some (s, rest).
Proof.
  induction n as [| n IH]; intros s rest Hlen.
  - destruct s; [reflexivity | simpl in Hlen; lia].
  - destruct s as [| c s]; [reflexivity |].
    simpl in Hlen. cbn [quote_chars].
    destruct (is_high_surrogate c) eqn:Hh.
    + apply high_surrogate_range in Hh.
      destruct s as [| d s].
      * rewrite parse_chars_escape_u by lia. reflexivity.
      * destruct (is_low_surrogate d) eqn:Hl.
        -- apply low_surrogate_range in Hl. cbn [app].
           rewrite parse_chars_literal by lia.
           rewrite parse_chars_literal by lia.
           rewrite IH by (simpl in Hlen; lia). reflexivity.
        -- rewrite <- app_assoc, parse_chars_escape_u by lia.
           rewrite IH by lia. reflexivity.
    + destruct (is_low_surrogate c) eqn:Hl.
      * apply low_surrogate_range in Hl.
        rewrite <- app_assoc, parse_chars_escape_u by lia.
        rewrite IH by lia. reflexivity.
      * rewrite <- app_assoc, parse_chars_quote_unit.
        rewrite IH by lia. reflexivity.
Qed.

(** Reading back a quoted string gives the string, whatever code units it
    is made of. *)
Lemma parse_chars_quote s rest :
  parse_chars (quote_chars s ++ 34%N :: rest) = Some (s, rest).
Proof. now apply (parse_chars_quote_bounded (length s)). Qed.

(** ** Printing and reading an integer *)

Lemma read_digits_stop acc n c rest :
  digit c = None -> read_digits acc n (c :: rest) = (acc, n, c :: rest).
Proof. intros H. cbn [read_digits]. now rewrite H. Qed.

Lemma dec_digits_S f v :
  dec_digits (S f) v =
  (if v <? 10 then [] else dec_digits f (v / 10)) ++ [Z.to_N (48 + v mod 10)].
Proof. reflexivity. Qed.

(** The digits of [v] start with a digit that is 0 only for [v = 0], and
    reading the digits after it continues from that digit to [v]. *)
Lemma dec_digits_read fuel : forall v,
  0 <= v < 2 ^ Z.of_nat (S fuel) ->
  exists d0 tail,
    dec_digits (S fuel) v = Z.to_N (48 + d0) :: tail
    /\ 0 <= d0 <= 9 /\ (d0 = 0 -> v = 0 /\ tail = [])
    /\ forall rest, read_digits d0 0 (tail ++ rest)
                    = read_digits v (Z.of_nat (length tail)) rest.
Proof.
  induction fuel as [| fuel IH]; intros v Hv.
  - change (2 ^ Z.of_nat 1) with 2 in Hv.
    exists v, []. cbn [dec_digits].
    replace (v <? 10) with true by (symmetry; apply Z.ltb_lt; lia).
    replace (v mod 10) with v by zdiv.
    split; [reflexivity |]. split; [lia |]. split; [auto |]. reflexivity.
  - rewrite (dec_digits_S (S fuel) v). destruct (Z.ltb_spec v 10) as [Hlt | Hge].
    + exists v, []. replace (v mod 10) with v by zdiv.
      split; [reflexivity |]. split; [lia |]. split; [auto |]. reflexivity.
    + rewrite Nat2Z.inj_succ, Z.pow_succ_r in Hv by lia.
      destruct (IH (v / 10)) as (d0 & tail & E & Hd & Hz & Hr); [zdiv |].
      exists d0, (tail ++ [Z.to_N (48 + v mod 10)]).
      rewrite E.
      split; [reflexivity |]. split; [lia |]. split.
      * intros Hd0. destruct (Hz Hd0) as [Hv0 _]. zdiv.
      * intros rest. rewrite <- app_assoc. cbn [app]. rewrite Hr.
        cbn [read_digits]. rewrite digit_of_char by zdiv.
        rewrite length_app. cbn [length].
        f_equal; [zdiv | lia].
Qed.

Lemma log2_fuel v : 0 <= v -> v < 2 ^ Z.of_nat (S (Z.to_nat (Z.log2 v))).
Proof.
  intros Hv. rewrite Nat2Z.inj_succ, Z2Nat.id by apply Z.log2_nonneg.
  destruct (Z.eq_dec v 0) as [-> | Hne]; [reflexivity |].
  apply Z.log2_spec. lia.
Qed.

(** A number is read back when a comma or a closing brace follows it. *)
Lemma parse_number_print x c rest :
  c = 44%N \/ c = 125%N ->
  parse_number (Number_toString x ++ c :: rest) = Some (JNum x 0, c :: rest).
Proof.
  intros Hc.
  assert (Hstop : forall acc n, read_digits acc n (c :: rest) = (acc, n, c :: rest)).
  { intros acc n. apply read_digits_stop. destruct Hc as [-> | ->]; reflexivity. }
  assert (Hfrac : forall ip, parse_fraction ip (c :: rest) = Some (ip, 0, c :: rest)).
  { intros ip. destruct Hc as [-> | ->]; reflexivity. }
  assert (Hexp : parse_exponent (c :: rest) = Some (0, c :: rest)).
  { destruct Hc as [-> | ->]; reflexivity. }
  unfold Number_toString. destruct (Z.ltb_spec x 0) as [Hneg | Hpos].
  - destruct (dec_digits_read (Z.to_nat (Z.log2 (- x))) (- x)) as (d0 & tail & E & Hd & Hz & Hr).
    { split; [lia | apply log2_fuel; lia]. }
    rewrite E. unfold parse_number. cbn [app].
    change ((45 =? 45)%N) with true. cbv iota.
    rewrite digit_of_char by assumption. cbn [bind].
    destruct (Z.eqb_spec d0 0) as [Hd0 | Hd0]; [destruct (Hz Hd0); lia |].
    rewrite Hr, Hstop, Hfrac. cbn [bind]. rewrite Hexp. cbn [bind].
    now rewrite Z.opp_involutive.
  - destruct (dec_digits_read (Z.to_nat (Z.log2 x)) x) as (d0 & tail & E & Hd & Hz & Hr).
    { split; [lia | apply log2_fuel; lia]. }
    rewrite E. unfold parse_number. cbn [app].
    destruct (N.eqb_spec (Z.to_N (48 + d0)) 45); [lia |].
    rewrite digit_of_char by assumption. cbn [bind].
    destruct (Z.eqb_spec d0 0) as [Hd0 | Hd0].
    + destruct (Hz Hd0) as [-> ->]. cbn [app].
      rewrite Hfrac. cbn [bind]. rewrite Hexp. reflexivity.
    + rewrite Hr, Hstop, Hfrac. cbn [bind]. rewrite Hexp. reflexivity.
Qed.

(** ** Reading back a serialized collection *)

Lemma parse_value_string f s rest :
  parse_value (S f) (QuoteJSONString s ++ rest) = Some (JStr s, rest).
Proof.
  unfold QuoteJSONString. cbn [app]. rewrite <- app_assoc. cbn [app].
  cbn [parse_value skip_ws]. change (is_json_ws 34) with false. cbv iota.
  change ((34 =? 123)%N) with false. change ((34 =? 91)%N) with false.
  change ((34 =? 34)%N) with true. cbv iota.
  now rewrite parse_chars_quote.
Qed.

Lemma Number_toString_head x :
  exists c tl, Number_toString x = c :: tl /\ (c = 45%N \/ (48 <= c <= 57)%N).
Proof.
  unfold Number_toString. destruct (Z.ltb_spec x 0) as [| Hx].
  - eexists _, _. split; [reflexivity | now left].
  - destruct (dec_digits_read (Z.to_nat (Z.log2 x)) x) as (d0 & tail & E & Hd & _);
      [split; [lia | apply log2_fuel; lia] |].
    rewrite E. exists (Z.to_N (48 + d0)), tail. split; [reflexivity | right; lia].
Qed.

Lemma parse_value_number f x c rest :
  c = 44%N \/ c = 125%N ->
  parse_value (S f) (Number_toString x ++ c :: rest) = Some (JNum x 0, c :: rest).
Proof.
  intros Hc. rewrite <- (parse_number_print x c rest Hc).
  destruct (Number_toString_head x) as (c0 & tl & E & Hc0). rewrite E.
  cbn [app parse_value skip_ws].
  assert (Hws : is_json_ws c0 = false).
  { unfold is_json_ws.
    destruct (N.eqb_spec c0 9), (N.eqb_spec c0 10), (N.eqb_spec c0 13),
      (N.eqb_spec c0 32); try lia; reflexivity. }
  rewrite Hws.
  destruct (N.eqb_spec c0 123); [lia |]. destruct (N.eqb_spec c0 91); [lia |].
  destruct (N.eqb_spec c0 34); [lia |]. destruct (N.eqb_spec c0 116); [lia |].
  destruct (N.eqb_spec c0 102); [lia |]. destruct (N.eqb_spec c0 110); [lia |].
  reflexivity.
Qed.

Lemma parse_value_bool f (b : bool) rest :
  parse_value (S f) ((if b then js "true" else js "false") ++ rest)
  = Some (JBool b, rest).
Proof. destruct b; reflexivity. Qed.

Lemma parse_value_null f rest :
  parse_value (S f) (js "null" ++ rest) = Some (JNull, rest).
Proof. reflexivity. Qed.

Lemma parse_value_due f d rest :
  parse_value (S f) (stringify_due d ++ rest) = Some (json_of_due d, rest).
Proof.
  destruct d as [[t |] | s |]; cbn [stringify_due json_of_due];
    (apply parse_value_string || apply parse_value_null).
Qed.

(** One property of an object, followed by a comma or by the closing
    brace. *)
Lemma parse_members_comma f acc k vt v rest :
  parse_value f (vt ++ 44%N :: rest) = Some (v, 44%N :: rest) ->
  parse_members (S f) acc (QuoteJSONString k ++ 58%N :: vt ++ 44%N :: rest)
  = parse_members f (obj_set k v acc) rest.
Proof.
  intros Hv. unfold QuoteJSONString. cbn [app]. rewrite <- app_assoc. cbn [app].
  cbn [parse_members skip_ws]. change (is_json_ws 34) with false. cbv iota.
  change ((34 =? 34)%N) with true. cbv iota.
  rewrite parse_chars_quote. cbn [bind skip_ws].
  change (is_json_ws 58) with false. cbv iota. rewrite expect_cons. cbn [bind].
  rewrite Hv. cbn [bind skip_ws]. change (is_json_ws 44) with false. cbv iota.
  change ((44 =? 44)%N) with true. reflexivity.
Qed.

Lemma parse_members_close f acc k vt v rest :
  parse_value f (vt ++ 125%N :: rest) = Some (v, 125%N :: rest) ->
  parse_members (S f) acc (QuoteJSONString k ++ 58%N :: vt ++ 125%N :: rest)
  = Some (obj_set k v acc, rest).
Proof.
  intros Hv. unfold QuoteJSONString. cbn [app]. rewrite <- app_assoc. cbn [app].
  cbn [parse_members skip_ws]. change (is_json_ws 34) with false. cbv iota.
  change ((34 =? 34)%N) with true. cbv iota.
  rewrite parse_chars_quote. cbn [bind skip_ws].
  change (is_json_ws 58) with false. cbv iota. rewrite expect_cons. cbn [bind].
  rewrite Hv. cbn [bind skip_ws]. change (is_json_ws 125) with false. cbv iota.
  change ((125 =? 44)%N) with false. change ((125 =? 125)%N) with true.
  reflexivity.
Qed.

Lemma parse_value_object f k s :
  parse_value (S f) (123%N :: QuoteJSONString k ++ s) =
  '(l, r) <- parse_members f [] (QuoteJSONString k ++ s) ;; Some (JObj l, r).
Proof. reflexivity. Qed.

(** The text of a task, property by property. *)
Lemma stringify_todo_text t rest :
  stringify_todo t ++ rest =
  123%N :: QuoteJSONString (js "id") ++ 58%N :: Number_toString (id t)
  ++ 44%N :: QuoteJSONString (js "text") ++ 58%N :: QuoteJSONString (text t)
  ++ 44%N :: QuoteJSONString (js "completed") ++ 58%N
       :: (if completed t then js "true" else js "false")
  ++ 44%N :: QuoteJSONString (js "category") ++ 58%N
       :: QuoteJSONString (category_name (category t))
  ++ 44%N :: QuoteJSONString (js "priority") ++ 58%N
       :: QuoteJSONString (priority_name (priority t))
  ++ match dueDate t with
     | Some d => 44%N :: QuoteJSONString (js "dueDate") ++ 58%N
                   :: stringify_due d ++ 125%N :: rest
     | None => 125%N :: rest
     end.
Proof.
  unfold stringify_todo. repeat rewrite <- app_assoc.
  destruct (dueDate t); repeat rewrite <- app_assoc; reflexivity.
Qed.

Lemma parse_value_todo t f rest :
  parse_value (8 + f) (stringify_todo t ++ rest) = Some (json_of_todo t, rest).
Proof.
  rewrite stringify_todo_text.
  change (8 + f)%nat with (S (S (S (S (S (S (S (S f)))))))).
  rewrite parse_value_object.
  rewrite parse_members_comma with (v := JNum (id t) 0)
    by (apply parse_value_number; now left).
  rewrite parse_members_comma with (v := JStr (text t))
    by apply parse_value_string.
  rewrite parse_members_comma with (v := JBool (completed t))
    by apply parse_value_bool.
  unfold json_of_todo. destruct (dueDate t) as [d |].
  - rewrite parse_members_comma with (v := JStr (category_name (category t)))
      by apply parse_value_string.
    rewrite parse_members_comma with (v := JStr (priority_name (priority t)))
      by apply parse_value_string.
    rewrite parse_members_close with (v := json_of_due d)
      by apply parse_value_due.
    reflexivity.
  - rewrite parse_members_comma with (v := JStr (category_name (category t)))
      by apply parse_value_string.
    rewrite parse_members_close with (v := JStr (priority_name (priority t)))
      by apply parse_value_string.
    reflexivity.
Qed.

Lemma parse_elements_print l : l <> [] -> forall f rest,
  parse_elements (length l + 8 + f) (stringify_elements l ++ 93%N :: rest)
  = Some (map json_of_todo l, rest).
Proof.
  induction l as [| t l IH]; intros Hne f rest; [contradiction |].
  destruct l as [| t' l].
  - cbn [stringify_elements length map Nat.add parse_elements].
    change (S (S (S (S (S (S (S (S f)))))))) with (8 + f)%nat.
    rewrite parse_value_todo. reflexivity.
  - change (stringify_elements (t :: t' :: l))
      with (stringify_todo t ++ js "," ++ stringify_elements (t' :: l)).
    rewrite <- !app_assoc.
    change (length (t :: t' :: l) + 8 + f)%nat
      with (S (length (t' :: l) + 8 + f)).
    cbn [parse_elements].
    replace (length (t' :: l) + 8 + f)%nat with (8 + (length (t' :: l) + f))%nat at 1 by lia.
    rewrite parse_value_todo. cbn [bind].
    change (js "," ++ stringify_elements (t' :: l) ++ 93%N :: rest)
      with (44%N :: stringify_elements (t' :: l) ++ 93%N :: rest).
    cbn [skip_ws]. change (is_json_ws 44) with false. cbv iota.
    change ((44 =? 44)%N) with true. cbv iota.
    rewrite IH by discriminate. reflexivity.
Qed.

Lemma stringify_todo_length t : (15 <= length (stringify_todo t))%nat.
Proof.
  pose proof (stringify_todo_text t []) as E. rewrite app_nil_r in E.
  rewrite E. cbn [length QuoteJSONString app].
  repeat (rewrite !length_app; cbn [length]). lia.
Qed.

Lemma stringify_elements_length l :
  (15 * length l <= length (stringify_elements l))%nat.
Proof.
  induction l as [| t l IH]; [simpl; lia |].
  pose proof (stringify_todo_length t).
  destruct l as [| t' l].
  - cbn [stringify_elements length]. lia.
  - change (stringify_elements (t :: t' :: l))
      with (stringify_todo t ++ js "," ++ stringify_elements (t' :: l)).
    rewrite !length_app. cbn [length] in *. lia.
Qed.

Lemma stringify_elements_head l :
  l <> [] -> exists s, stringify_elements l = 123%N :: s.
Proof.
  destruct l as [| t l]; [contradiction |]. intros _.
  destruct l as [| t' l].
  - cbn [stringify_elements]. pose proof (stringify_todo_text t []) as E.
    rewrite app_nil_r in E. rewrite E. eexists. reflexivity.
  - change (stringify_elements (t :: t' :: l))
      with (stringify_todo t ++ js "," ++ stringify_elements (t' :: l)).
    rewrite stringify_todo_text. eexists. reflexivity.
Qed.

Lemma parse_value_array f s :
  parse_value (S f) (91%N :: 123%N :: s) =
  '(l, r) <- parse_elements f (123%N :: s) ;; Some (JArr l, r).
Proof. reflexivity. Qed.

(** [JSON.parse] reads back what [JSON.stringify] wrote for a collection:
    the array of the objects of its tasks. *)
Lemma JSON_parse_stringify l :
  JSON_parse (JSON_stringify l) = Some (JArr (map json_of_todo l)).
Proof.
  destruct l as [| t l]; [reflexivity |].
  unfold JSON_parse, JSON_stringify.
  change (js "[" ++ stringify_elements (t :: l) ++ js "]")
    with (91%N :: stringify_elements (t :: l) ++ [93%N]).
  pose proof (stringify_elements_length (t :: l)) as Hlen.
  destruct (stringify_elements_head (t :: l)) as [s Es]; [discriminate |].
  remember (2 * length (91%N :: stringify_elements (t :: l) ++ [93%N]))%nat
    as n eqn:En.
  cbn [length] in En. rewrite length_app in En. cbn [length] in En, Hlen.
  rewrite Es. cbn [app]. rewrite parse_value_array.
  change (123%N :: s ++ [93%N]) with ((123%N :: s) ++ [93%N]). rewrite <- Es.
  replace n with (length (t :: l) + 8 + (n - length (t :: l) - 8))%nat
    by (cbn [length]; lia).
  rewrite parse_elements_print by discriminate. reflexivity.
Qed.


(** ** What comes back from storage *)



Lemma json_int_safe i : id_safe i -> json_int i 0 = Some i.
Proof.
  unfold id_safe, json_int. intros H. cbn [Z.leb Z.compare bind Z.pow].
  rewrite Z.mul_1_r.
  rewrite !(proj2 (Z.leb_le _ _)) by lia. reflexivity.
Qed.

Lemma as_category_name c : as_category (JStr (category_name c)) = Some c.
Proof. destruct c; reflexivity. Qed.

Lemma as_priority_name p : as_priority (JStr (priority_name p)) = Some p.
Proof. destruct p; reflexivity. Qed.

Lemma as_todo_json t : id_safe (id t) -> as_todo (json_of_todo t) = Some (reload t).
Proof.
  intros Hid. destruct t as [i s c cat pri due]. cbn [id] in Hid.
  unfold as_todo, json_of_todo, reload.
  cbn [id text completed category priority dueDate].
  destruct due as [[[tv |] | ds |] |];
    cbn -[json_int as_category as_priority category_name priority_name toISOString];
    rewrite (json_int_safe i Hid);
    cbn -[as_category as_priority category_name priority_name toISOString];
    rewrite as_category_name;
    cbn -[as_priority priority_name toISOString];
    rewrite as_priority_name; reflexivity.
Qed.

Lemma traverse_map {A B C : Type} (f : B -> option C) (g : A -> B) (h : A -> C) l :
  Forall (fun a => f (g a) = Some (h a)) l ->
  traverse f (map g l) = Some (map h l).
Proof.
  induction 1 as [| a l Ha _ IH]; cbn [map traverse].
  - reflexivity.
  - rewrite Ha. cbn [bind]. rewrite IH. reflexivity.
Qed.

(** A load of what a save wrote returns, and sets the collection to the
    reloaded tasks. *)
Lemma load_saved l st st0 :
  todos st = l -> Forall storable l ->
  load (Some (save st)) st0 = Loaded (setTodos (map reload l) st0).
Proof.
  intros <- Hs. unfold load, save.
  change (string_truthy (JSON_stringify (todos st))) with true. cbv iota.
  rewrite JSON_parse_stringify. cbn [as_todos].
  rewrite (traverse_map as_todo json_of_todo reload).
  - reflexivity.
  - eapply Forall_impl; [| exact Hs]. intros t [Hid _]. now apply as_todo_json.
Qed.

Lemma toISOString_nonempty t : string_truthy (toISOString t) = true.
Proof.
  rewrite toISOString_text. destruct (civil_from_days (t / msPerDay)) as [[y m] d].
  cbv zeta. unfold iso_text. destruct (year_text y); reflexivity.
Qed.





(** ** Loading *)

(** C1, amended. Load returns normally and leaves the state as it was when
    the key is absent or holds the empty string.  When the stored text is
    valid JSON, load returns normally too: it sets the collection to the
    parsed value when that is a task list, and hands the parsed value to
    [setTodos] unchecked when it is not.  When the stored text is not empty
    and is not valid JSON, the [SyntaxError] of [JSON.parse] leaves load
    uncaught. *)
Theorem load_outcomes (st : AppState) :
  load None st = Loaded st
  /\ load (Some []) st = Loaded st
  /\ (forall s v l, s <> [] -> JSON_parse s = Some v -> as_todos v = Some l ->
        load (Some s) st = Loaded (setTodos l st))
  /\ (forall s v, s <> [] -> JSON_parse s = Some v -> as_todos v = None ->
        load (Some s) st = LoadedUntyped v)
  /\ (forall s, s <> [] -> JSON_parse s = None ->
        load (Some s) st = ThrewSyntaxError).
Proof.
  repeat split.
  - intros s v l Hs Hp Ht. destruct s; [contradiction |].
    unfold load. cbn [string_truthy]. now rewrite Hp, Ht.
  - intros s v Hs Hp Ht. destruct s; [contradiction |].
    unfold load. cbn [string_truthy]. now rewrite Hp, Ht.
  - intros s Hs Hp. destruct s; [contradiction |].
    unfold load. cbn [string_truthy]. now rewrite Hp.
Qed.


(** ** The view of a reloaded collection *)

Lemma filter_map_commute {A B : Type} (p : B -> bool) (f : A -> B) l :
  filter p (map f l) = map f (filter (fun a => p (f a)) l).
Proof.
  induction l as [| a l IH]; cbn [map filter]; [reflexivity |].
  destruct (p (f a)); cbn [map]; now rewrite IH.
Qed.

Lemma insert_sorted_map {A B : Type} (cmpA : A -> A -> number)
  (cmpB : B -> B -> number) (f : A -> B) x l :
  (forall y, In y l -> SortCompare cmpB (f x) (f y) = SortCompare cmpA x y) ->
  insert_sorted cmpB (f x) (map f l) = map f (insert_sorted cmpA x l).
Proof.
  induction l as [| y l IH]; intros H; cbn [map insert_sorted]; [reflexivity |].
  rewrite (H y) by now left.
  destruct (0 <? SortCompare cmpA x y); cbn [map]; [| reflexivity].
  rewrite IH; [reflexivity |]. intros z Hz. apply H. now right.
Qed.

Lemma sort_map {A B : Type} (cmpA : A -> A -> number) (cmpB : B -> B -> number)
  (f : A -> B) l :
  (forall x y, In x l -> In y l ->
     SortCompare cmpB (f x) (f y) = SortCompare cmpA x y) ->
  sort cmpB (map f l) = map f (sort cmpA l).
Proof.
  induction l as [| x l IH]; intros H; [reflexivity |].
  cbn [map sort fold_right]. fold (sort cmpB (map f l)). fold (sort cmpA l).
  rewrite IH by (intros; apply H; now right).
  apply insert_sorted_map. intros y Hy. apply H; [now left |].
  right. exact (Permutation_in _ (sort_perm cmpA l) Hy).
Qed.

(** The comparator places two reloaded tasks as it placed the tasks. *)
Lemma SortCompare_reload a b :
  due_clipped (dueDate a) -> due_clipped (dueDate b) ->
  SortCompare compareTodos (reload a) (reload b) = SortCompare compareTodos a b.
Proof.
  intros Ha Hb. unfold SortCompare, compareTodos, reload.
  cbn [priority dueDate].
  destruct (negb (priorityOrder (priority a) - priorityOrder (priority b) =? 0));
    [reflexivity |].
  destruct (dueDate a) as [[[ta |] | sa |] |], (dueDate b) as [[[tb |] | sb |] |];
    cbn [reload_due due_truthy due_getTime andb due_clipped] in *;
    rewrite ?toISOString_nonempty, ?Date_parse_toISOString by assumption;
    cbn [andb]; try reflexivity;
    try (destruct (string_truthy sa); reflexivity);
    try (destruct (string_truthy sb); reflexivity);
    try (rewrite andb_false_r; reflexivity).
  destruct (string_truthy sa); cbn [andb]; [| reflexivity].
  destruct (Date_parse sa); reflexivity.
Qed.

(** The view pipeline shows a reloaded collection as it showed the
    collection: the same tasks pass the filters and they come in the same
    order. *)
Lemma reloaded_view l term flt :
  Forall (fun t => due_clipped (dueDate t)) l ->
  view (map reload l) term flt = map reload (view l term flt).
Proof.
  intros Hl. unfold view. rewrite !filter_map_commute.
  apply sort_map. intros x y Hx Hy.
  apply filter_In in Hx. destruct Hx as [Hx _]. apply filter_In in Hx.
  apply filter_In in Hy. destruct Hy as [Hy _]. apply filter_In in Hy.
  rewrite Forall_forall in Hl. apply SortCompare_reload; apply Hl; tauto.
Qed.


(** * Further properties of the handlers *)

(** ** White space and substrings *)

Lemma trimStart_nil_iff s : trimStart s = [] <-> all_white s.
Proof.
  unfold all_white. induction s as [| c s IH]; cbn [trimStart].
  - split; [constructor | reflexivity].
  - destruct (isWhiteSpace c) eqn:E.
    + rewrite IH. split; [now constructor | now inversion 1].
    + split; [discriminate |]. intros H. apply Forall_inv in H. cbn beta in H.
      congruence.
Qed.

Lemma all_white_rev s : all_white (rev s) <-> all_white s.
Proof.
  unfold all_white. rewrite !Forall_forall.
  split; intros H c Hc; apply H; [now apply in_rev in Hc | now apply in_rev].
Qed.

(** A string that starts with a character that is not white space keeps
    that character under [trimStart]. *)
Lemma trimStart_nonempty_head s :
  trimStart s <> [] ->
  exists c r, trimStart s = c :: r /\ isWhiteSpace c = false.
Proof.
  induction s as [| c s IH]; cbn [trimStart]; [contradiction |].
  destruct (isWhiteSpace c) eqn:E; [exact IH |]. intros _. now exists c, s.
Qed.

Lemma trim_nil_iff s : trim s = [] <-> all_white s.
Proof.
  unfold trim, trimEnd. split.
  - intros H. apply (f_equal (@rev N)) in H. rewrite rev_involutive in H.
    cbn [rev] in H. apply trimStart_nil_iff in H.
    apply (proj1 (all_white_rev _)) in H.
    destruct (trimStart s) as [| c r] eqn:E; [now apply trimStart_nil_iff |].
    destruct (trimStart_nonempty_head s) as (c' & r' & E' & Hc');
      [rewrite E; discriminate |].
    rewrite E in E'. injection E' as <- <-.
    apply Forall_inv in H. cbn beta in H. congruence.
  - intros H. apply trimStart_nil_iff in H. rewrite H. reflexivity.
Qed.

Lemma startsWith_iff p s : startsWith p s = true <-> exists b, s = p ++ b.
Proof.
  revert s. induction p as [| c p IH]; intros s; cbn [startsWith].
  - split; [now exists s | reflexivity].
  - destruct s as [| d s].
    + split; [discriminate | intros [b H]; discriminate H].
    + rewrite andb_true_iff, N.eqb_eq, IH. split.
      * intros [-> [b ->]]. now exists b.
      * intros [b H]. injection H as -> ->. split; [reflexivity | now exists b].
Qed.

(** [includes] finds exactly the contiguous occurrences. *)
Lemma includes_iff s p : includes s p = true <-> exists a b, s = a ++ p ++ b.
Proof.
  induction s as [| c s IH]; cbn [includes]; rewrite orb_true_iff, startsWith_iff.
  - split.
    + intros [[b H] | H]; [now exists [], b | discriminate].
    + intros (a & b & H). left. destruct a; [now exists b |]. discriminate H.
  - rewrite IH. split.
    + intros [[b H] | (a & b & H)]; [now exists [], b |].
      exists (c :: a), b. now rewrite H.
    + intros (a & b & H). destruct a as [| c' a].
      * left. now exists b.
      * right. injection H as -> ->. now exists a, b.
Qed.

(** ** Submitting *)

(** X1. A submit is refused exactly when the input is empty or made of
    white space only: then the state stays as it is.  Otherwise one task
    is appended after the tasks that were there, the text input and the
    date input are cleared, and the selections of category and priority,
    the search term and the status filter are kept. *)
Theorem submit_refused_iff_white (now : Z) (st : AppState) :
  (all_white (inputValue st) <-> handleSubmit now st = st)
  /\ (~ all_white (inputValue st) ->
      exists t, todos (handleSubmit now st) = todos st ++ [t]
        /\ inputValue (handleSubmit now st) = []
        /\ selectedDate (handleSubmit now st) = []
        /\ selectedCategory (handleSubmit now st) = selectedCategory st
        /\ selectedPriority (handleSubmit now st) = selectedPriority st
        /\ searchTerm (handleSubmit now st) = searchTerm st
        /\ statusFilter (handleSubmit now st) = statusFilter st).
Proof.
  assert (Hacc : ~ all_white (inputValue st) ->
            exists t, handleSubmit now st =
              setSelectedDate [] (setInputValue [] (setTodos (todos st ++ [t]) st))).
  { intros H. rewrite <- trim_nil_iff in H. unfold handleSubmit.
    destruct (jsstring_eqb (trim (inputValue st)) []) eqn:E.
    - apply jsstring_eqb_nil in E. contradiction.
    - eexists. reflexivity. }
  split; [split |].
  - intros H. apply handleSubmit_blank. now apply trim_nil_iff.
  - intros H.
    destruct (jsstring_eqb (trim (inputValue st)) []) eqn:E.
    + apply trim_nil_iff. now apply jsstring_eqb_nil.
    + exfalso. destruct Hacc as [t Ht].
      { intros Hw. apply trim_nil_iff in Hw. rewrite Hw in E. discriminate. }
      rewrite H in Ht. apply (f_equal (fun s => length (todos s))) in Ht.
      cbn in Ht. rewrite length_app in Ht. cbn in Ht. lia.
  - intros H. destruct (Hacc H) as [t ->]. exists t. repeat split.
Qed.

(** X2. Submitting twice in a row adds at most one task: the first submit
    clears the text input, so a second submit with nothing typed in between
    changes nothing, whatever the clock says. *)
Theorem double_submit_adds_once (n1 n2 : Z) (st : AppState) :
  handleSubmit n2 (handleSubmit n1 st) = handleSubmit n1 st.
Proof.
  destruct (jsstring_eqb (trim (inputValue st)) []) eqn:E.
  - apply jsstring_eqb_nil in E. rewrite (handleSubmit_blank n1 st E).
    now apply handleSubmit_blank.
  - apply handleSubmit_blank. unfold handleSubmit. rewrite E. reflexivity.
Qed.

(** X3. Deleting the id of a task right after creating it gives back the
    collection, provided no older task has that id; an older task with the
    same id is deleted along with the new one. *)
Theorem create_then_delete (now : Z) (st : AppState) :
  todos (deleteTodo now (handleSubmit now st)) = todos (deleteTodo now st)
  /\ (~ In now (map id (todos st)) ->
      todos (deleteTodo now (handleSubmit now st)) = todos st).
Proof.
  assert (H : todos (deleteTodo now (handleSubmit now st)) = todos (deleteTodo now st)).
  { rewrite !todos_deleteTodo.
    destruct (jsstring_eqb (trim (inputValue st)) []) eqn:E.
    - apply jsstring_eqb_nil in E. now rewrite handleSubmit_blank.
    - rewrite handleSubmit_todos by (intros H; rewrite H in E; discriminate).
      rewrite filter_app. cbn [filter id]. rewrite Z.eqb_refl. cbn [negb].
      apply app_nil_r. }
  split; [exact H |]. intros Hn. rewrite H, todos_deleteTodo.
  now apply delete_filter_absent.
Qed.

(** ** Toggle and delete together *)

Lemma setTodos_eq l l' st : l = l' -> setTodos l st = setTodos l' st.
Proof. now intros ->. Qed.

(** X4. Toggles and deletes can be done in any order: two toggles commute,
    two deletes commute, a delete commutes with a toggle, and deleting the
    same id again changes nothing. *)
Theorem toggle_delete_commute (i j : Z) (st : AppState) :
  toggleTodo i (toggleTodo j st) = toggleTodo j (toggleTodo i st)
  /\ deleteTodo i (deleteTodo j st) = deleteTodo j (deleteTodo i st)
  /\ deleteTodo i (toggleTodo j st) = toggleTodo j (deleteTodo i st)
  /\ deleteTodo i (deleteTodo i st) = deleteTodo i st.
Proof.
  unfold toggleTodo, deleteTodo. rewrite !todos_setTodos, !setTodos_setTodos.
  repeat split; apply setTodos_eq.
  - rewrite !map_map. apply map_ext. intros t.
    destruct (id t =? j) eqn:Ej, (id t =? i) eqn:Ei; cbn [flip id];
      rewrite ?Ei, ?Ej; reflexivity.
  - induction (todos st) as [| t l IH]; [reflexivity |]. cbn [filter].
    destruct (id t =? j) eqn:Ej, (id t =? i) eqn:Ei; cbn [filter negb];
      rewrite ?Ei, ?Ej; cbn [negb]; now rewrite IH.
  - induction (todos st) as [| t l IH]; [reflexivity |]. cbn [filter map].
    destruct (id t =? j) eqn:Ej, (id t =? i) eqn:Ei; cbn [flip id filter map negb];
      rewrite ?Ei, ?Ej; cbn [negb]; now rewrite IH.
  - induction (todos st) as [| t l IH]; [reflexivity |]. cbn [filter].
    destruct (id t =? i) eqn:Ei; cbn [filter negb]; rewrite ?Ei; cbn [negb];
      now rewrite IH.
Qed.


(** ** The completed count and the confetti *)

Lemma completed_count_toggle_unique i l :
  NoDup (map id l) -> In i (map id l) ->
  exists t, find (fun t => id t =? i) l = Some t
    /\ (length (filter completed
                  (map (fun todo => if (id todo =? i)%Z then flip todo else todo) l))
        + (if completed t then 1 else 0)
        = length (filter completed l) + (if completed t then 0 else 1))%nat.
Proof.
  induction l as [| t l IH]; intros Hnd Hin; [contradiction |].
  cbn [map] in Hnd. apply NoDup_cons_iff in Hnd. destruct Hnd as [Hnot Hnd].
  cbn [find map filter]. destruct (Z.eqb_spec (id t) i) as [E | E].
  - exists t. split; [reflexivity |]. rewrite E in Hnot.
    rewrite (toggle_map_absent i l Hnot). cbn [flip completed].
    destruct (completed t); cbn [negb length]; lia.
  - destruct IH as (t' & Hf & Hc); [assumption | |].
    + destruct Hin as [Hin | Hin]; [contradiction | assumption].
    + exists t'. split; [assumption |].
      destruct (completed t); cbn [length]; lia.
Qed.

(** X5. With distinct ids, the confetti goes off exactly when a toggle
    raises the completed count: toggling the id of a task in the collection
    raises the count by one when the confetti goes off and lowers it by one
    when it does not. *)
Theorem confetti_iff_count_rises (i : Z) (st : AppState) :
  NoDup (map id (todos st)) -> In i (map id (todos st)) ->
  (toggle_celebrates i st = true ->
     completedCount (toggleTodo i st) = S (completedCount st))
  /\ (toggle_celebrates i st = false ->
     S (completedCount (toggleTodo i st)) = completedCount st).
Proof.
  intros Hnd Hin. unfold completedCount, toggle_celebrates.
  rewrite todos_toggleTodo.
  destruct (completed_count_toggle_unique i (todos st) Hnd Hin) as (t & -> & Hc).
  destruct (completed t); cbn [negb]; split; intros H; try discriminate; lia.
Qed.

Lemma filter_length_le {A : Type} (f : A -> bool) l :
  (length (filter f l) <= length l)%nat.
Proof.
  induction l as [| a l IH]; cbn [filter length]; [lia |].
  destruct (f a); cbn [length]; lia.
Qed.

(** X6. The count that drives the progress bar never exceeds the number of
    tasks, is left as it is by a create (a new task is not completed),
    never grows under a delete, and equals the number of tasks that the
    "completed" filter shows when the search box is empty; the tasks shown
    under "active" and under "completed" then add up to the collection. *)
Theorem progress_count_matches_filters (now i : Z) (st : AppState) :
  (completedCount st <= length (todos st))%nat
  /\ completedCount (handleSubmit now st) = completedCount st
  /\ (completedCount (deleteTodo i st) <= completedCount st)%nat
  /\ completedCount st = length (view (todos st) [] completed_only)
  /\ (length (view (todos st) [] active)
      + length (view (todos st) [] completed_only) = length (todos st))%nat.
Proof using toLowerCase_empty.
  unfold completedCount. split; [apply filter_length_le |]. split; [| split; [| split]].
  - destruct (jsstring_eqb (trim (inputValue st)) []) eqn:E.
    + apply jsstring_eqb_nil in E. now rewrite handleSubmit_blank.
    + rewrite handleSubmit_todos by (intros H; rewrite H in E; discriminate).
      rewrite filter_app. cbn [filter completed]. now rewrite app_nil_r.
  - rewrite todos_deleteTodo.
    induction (todos st) as [| t l IH]; cbn [filter length]; [lia |].
    destruct (id t =? i); cbn [negb filter]; destruct (completed t);
      cbn [length]; lia.
  - unfold view. rewrite filter_empty_term.
    now rewrite (Permutation_length (sort_perm _ _)).
  - unfold view. rewrite filter_empty_term.
    rewrite !(Permutation_length (sort_perm _ _)), <- length_app.
    apply Permutation_length. apply (filter_partition_perm completed).
Qed.

(** ** What a session keeps true *)

Lemma subseq_refl {A : Type} (l : list A) : subseq l l.
Proof. induction l; now constructor. Qed.

Lemma subseq_trans {A : Type} (l1 l2 l3 : list A) :
  subseq l1 l2 -> subseq l2 l3 -> subseq l1 l3.
Proof.
  intros H12 H23. revert l1 H12.
  induction H23 as [| x l2 l3 H IH | x l2 l3 H IH]; intros l1 H12.
  - assumption.
  - inversion H12; subst; constructor; auto.
  - constructor. auto.
Qed.

Lemma subseq_app {A : Type} (a a' b b' : list A) :
  subseq a a' -> subseq b b' -> subseq (a ++ b) (a' ++ b').
Proof.
  intros Ha Hb. induction Ha; cbn [app]; [assumption | |]; now constructor.
Qed.

Lemma subseq_Forall {A : Type} (P : A -> Prop) (l l' : list A) :
  subseq l l' -> Forall P l' -> Forall P l.
Proof.
  induction 1 as [| x l l' Hs IH | x l l' Hs IH]; intros HP;
    [constructor | |]; inversion HP; subst; auto.
Qed.

Lemma subseq_StronglySorted {A : Type} (R : A -> A -> Prop) (l l' : list A) :
  subseq l l' -> StronglySorted R l' -> StronglySorted R l.
Proof.
  induction 1 as [| x l l' H IH | x l l' H IH]; intros Hs.
  - constructor.
  - apply StronglySorted_inv in Hs. destruct Hs as [Hs Hx].
    constructor; [auto |]. now apply (subseq_Forall _ _ _ H).
  - apply StronglySorted_inv in Hs. tauto.
Qed.

Lemma run_cons ev evs st : run (ev :: evs) st = run evs (step st ev).
Proof. reflexivity. Qed.

Lemma step_ids_subseq ev st :
  subseq (ids (step st ev) ++ submit_times [])
         (ids st ++ submit_times [ev]).
Proof.
  cbn [submit_times]. rewrite app_nil_r.
  destruct ev; cbn [step submit_times]; rewrite ?app_nil_r;
    try apply subseq_refl.
  - destruct (ids_handleSubmit now st) as [-> | ->].
    + rewrite <- (app_nil_r (ids st)) at 1. apply subseq_app.
      * apply subseq_refl.
      * repeat constructor.
    + apply subseq_refl.
  - rewrite ids_toggleTodo. apply subseq_refl.
  - rewrite ids_deleteTodo. apply filter_subseq.
Qed.

Lemma submit_times_cons ev evs :
  submit_times (ev :: evs) = submit_times [ev] ++ submit_times evs.
Proof. destruct ev; reflexivity. Qed.

Lemma run_ids_subseq evs : forall st,
  subseq (ids (run evs st)) (ids st ++ submit_times evs).
Proof.
  induction evs as [| ev evs IH]; intros st.
  - cbn [run fold_left submit_times]. rewrite app_nil_r. apply subseq_refl.
  - rewrite run_cons, submit_times_cons.
    eapply subseq_trans; [apply IH |].
    rewrite app_assoc. apply subseq_app; [| apply subseq_refl].
    pose proof (step_ids_subseq ev st) as H. cbn [submit_times] in H.
    now rewrite app_nil_r in H.
Qed.

(** X7. The collection is always in the order of the submits: whatever
    collection a session starts with (the empty one, or the one that the
    load at mount read from storage), the ids of the tasks it reaches are
    ids of that collection followed by clock readings of submits of the
    session, in that order.  When these numbers rise along that list, the
    ids rise along the collection. *)
Theorem collection_in_submit_order (evs : list Event) (st0 : AppState) :
  subseq (ids (run evs st0)) (ids st0 ++ submit_times evs)
  /\ (StronglySorted Z.lt (ids st0 ++ submit_times evs) ->
      StronglySorted Z.lt (ids (run evs st0))).
Proof.
  assert (H : subseq (ids (run evs st0)) (ids st0 ++ submit_times evs))
    by apply (run_ids_subseq evs st0).
  split; [exact H |]. now apply subseq_StronglySorted.
Qed.


Lemma kept_from_refl t : kept_from t t.
Proof. now repeat split. Qed.

Lemma kept_from_trans a b c : kept_from a b -> kept_from b c -> kept_from a c.
Proof. unfold kept_from. intuition congruence. Qed.

Lemma kept_from_flip t : kept_from t (flip t).
Proof. now repeat split. Qed.

(** Where the tasks of the state after one event come from. *)
Lemma step_origin ev st t :
  In t (todos (step st ev)) ->
  (exists t0, In t0 (todos st) /\ kept_from t0 t) \/ created_in [ev] t.
Proof.
  assert (Hold : In t (todos st) ->
                 (exists t0, In t0 (todos st) /\ kept_from t0 t) \/ created_in [ev] t).
  { intros H. left. exists t. split; [exact H | apply kept_from_refl]. }
  destruct ev; cbn [step]; try exact Hold.
  - destruct (jsstring_eqb (trim (inputValue st)) []) eqn:E.
    + apply jsstring_eqb_nil in E. now rewrite handleSubmit_blank.
    + assert (Hne : trim (inputValue st) <> [])
        by (intros H; rewrite H in E; discriminate).
      rewrite handleSubmit_todos by assumption. intros H. apply in_app_or in H.
      destruct H as [H | [<- | []]]; [auto |]. right.
      unfold created_in, fresh_due. cbn [id text dueDate submit_times In].
      split; [now left |]. split.
      * now rewrite <- trim_nil_iff.
      * now destruct (string_truthy (selectedDate st)).
  - rewrite todos_toggleTodo. intros H. apply in_map_iff in H.
    destruct H as (t0 & <- & H0). left. exists t0. split; [exact H0 |].
    destruct (id t0 =? i); [apply kept_from_flip | apply kept_from_refl].
  - rewrite todos_deleteTodo. intros H. apply filter_In in H. tauto.
Qed.

Lemma created_in_kept ev evs t1 t :
  created_in [ev] t1 -> kept_from t1 t -> created_in (ev :: evs) t.
Proof.
  intros (Hi & Ht & Hd) (Ei & Et & _ & _ & Ed). unfold created_in, fresh_due in *.
  rewrite Ei, Et, Ed, submit_times_cons. split; [| tauto].
  apply in_or_app. now left.
Qed.

Lemma created_in_later ev evs t : created_in evs t -> created_in (ev :: evs) t.
Proof.
  intros (Hi & H). split; [| exact H]. rewrite submit_times_cons.
  apply in_or_app. now right.
Qed.

Lemma run_origin evs : forall st0,
  Forall (fun t => (exists t0, In t0 (todos st0) /\ kept_from t0 t) \/ created_in evs t)
         (todos (run evs st0)).
Proof.
  induction evs as [| ev evs IH]; intros st0.
  - cbn [run fold_left]. apply Forall_forall. intros t Ht. left.
    exists t. split; [exact Ht | apply kept_from_refl].
  - rewrite run_cons. eapply Forall_impl; [| apply IH]. cbn beta.
    intros t [(t1 & H1 & Hk) | Hc]; [| right; now apply created_in_later].
    destruct (step_origin ev st0 t1 H1) as [(t0 & H0 & Hk0) | Hc].
    + left. exists t0. split; [exact H0 |]. now apply (kept_from_trans t0 t1 t).
    + right. now apply (created_in_kept ev evs t1 t).
Qed.

(** X8. Tasks are never edited in place and never blank: whatever
    collection a session starts with, every task of a state it reaches is
    either a task of the starting collection with at most its completed
    flag changed, or was created by a submit of the session, and then its id
    is the clock reading of that submit, its text holds a character that is
    not white space and its due date is absent or a [Date] object.  So when
    no task of the starting collection has a blank text, no task ever
    has. *)
Theorem tasks_kept_or_created (evs : list Event) (st0 : AppState) :
  Forall (fun t => (exists t0, In t0 (todos st0) /\ kept_from t0 t) \/ created_in evs t)
         (todos (run evs st0))
  /\ (Forall (fun t => ~ all_white (text t)) (todos st0) ->
      Forall (fun t => ~ all_white (text t)) (todos (run evs st0))).
Proof.
  split; [apply run_origin |]. intros H0.
  eapply Forall_impl; [| apply (run_origin evs st0)]. cbn beta.
  intros t [(t0 & Ht0 & (_ & Et & _)) | (_ & Ht & _)]; [| exact Ht].
  rewrite Et. rewrite Forall_forall in H0. now apply H0.
Qed.


(** * Further properties of the view pipeline *)

(** ** What the comparator says *)

Lemma priorityOrder_inj p q : priorityOrder p = priorityOrder q -> p = q.
Proof. destruct p, q; cbn; intros H; try reflexivity; discriminate H. Qed.

Lemma Priority_eqb_eq p q : Priority_eqb p q = true <-> p = q.
Proof.
  unfold Priority_eqb. rewrite Z.eqb_eq. split; [apply priorityOrder_inj | now intros ->].
Qed.

Lemma SortCompare_priority a b :
  priority a <> priority b ->
  SortCompare compareTodos a b = priorityOrder (priority a) - priorityOrder (priority b)
  /\ SortCompare compareTodos a b <> 0.
Proof.
  intros H. unfold SortCompare. destruct (compareTodos_priority a b H) as [-> Hne].
  now split.
Qed.

(** The comparator never contradicts itself on a pair: swapping the
    arguments negates the result. *)
Lemma SortCompare_antisym a b :
  SortCompare compareTodos b a = - SortCompare compareTodos a b.
Proof.
  unfold SortCompare, compareTodos.
  replace (priorityOrder (priority b) - priorityOrder (priority a))
    with (- (priorityOrder (priority a) - priorityOrder (priority b))) by lia.
  destruct (Z.eqb_spec (priorityOrder (priority a) - priorityOrder (priority b)) 0)
    as [E | E].
  - rewrite E. cbn [Z.opp Z.eqb negb].
    rewrite (andb_comm (due_truthy (dueDate b))).
    destruct (due_truthy (dueDate a) && due_truthy (dueDate b)); [| reflexivity].
    destruct (due_getTime (dueDate a)), (due_getTime (dueDate b));
      cbn [num_sub]; try reflexivity. f_equal. lia.
  - destruct (Z.eqb_spec (- (priorityOrder (priority a) - priorityOrder (priority b))) 0);
      [lia | reflexivity].
Qed.

(** ** What the sort guarantees *)

Lemma insert_sorted_StronglySorted {A : Type} (le : A -> A -> Prop)
  (cmp : A -> A -> number) (P : A -> Prop) :
  (forall x y, P x -> P y -> 0 < SortCompare cmp x y -> le y x) ->
  (forall x y, P x -> P y -> SortCompare cmp x y <= 0 -> le x y) ->
  (forall x y z, le x y -> le y z -> le x z) ->
  forall x l, P x -> Forall P l -> StronglySorted le l ->
              StronglySorted le (insert_sorted cmp x l).
Proof.
  intros Hgt Hle Htrans x l Px. induction l as [| y l IH]; intros HP Hs.
  - repeat constructor.
  - apply Forall_cons_iff in HP. destruct HP as [Py HP].
    apply StronglySorted_inv in Hs. destruct Hs as [Hs Hy].
    cbn [insert_sorted]. destruct (Z.ltb_spec 0 (SortCompare cmp x y)) as [H | H].
    + constructor; [auto |].
      apply (Permutation_Forall (Permutation_sym (insert_sorted_perm cmp x l))).
      constructor; [now apply Hgt | assumption].
    + constructor; [now constructor |].
      assert (Hxy : le x y) by now apply Hle.
      constructor; [assumption |].
      eapply Forall_impl; [| exact Hy]. intros z Hz. now apply (Htrans x y z).
Qed.

Lemma sort_cons {A : Type} (cmp : A -> A -> number) x l :
  sort cmp (x :: l) = insert_sorted cmp x (sort cmp l).
Proof. reflexivity. Qed.

Lemma sort_StronglySorted {A : Type} (le : A -> A -> Prop)
  (cmp : A -> A -> number) (P : A -> Prop) :
  (forall x y, P x -> P y -> 0 < SortCompare cmp x y -> le y x) ->
  (forall x y, P x -> P y -> SortCompare cmp x y <= 0 -> le x y) ->
  (forall x y z, le x y -> le y z -> le x z) ->
  forall l, Forall P l -> StronglySorted le (sort cmp l).
Proof.
  intros Hgt Hle Htrans. induction l as [| x l IH]; intros HP.
  - constructor.
  - apply Forall_cons_iff in HP. destruct HP as [Px HP].
    rewrite sort_cons.
    apply (insert_sorted_StronglySorted le cmp P); auto.
    apply (Permutation_Forall (Permutation_sym (sort_perm cmp l))). assumption.
Qed.

Lemma rank_le_of_compare a b :
  (0 < SortCompare compareTodos a b -> rank_le b a)
  /\ (SortCompare compareTodos a b <= 0 -> rank_le a b).
Proof.
  unfold rank_le.
  destruct (Z.eq_dec (priorityOrder (priority a)) (priorityOrder (priority b)))
    as [E | E]; [lia |].
  destruct (SortCompare_priority a b) as [-> _]; [congruence | lia].
Qed.

Lemma sort_rank_sorted l : StronglySorted rank_le (sort compareTodos l).
Proof.
  apply (sort_StronglySorted rank_le compareTodos (fun _ => True)).
  - intros x y _ _. apply rank_le_of_compare.
  - intros x y _ _. apply rank_le_of_compare.
  - unfold rank_le. intros x y z. lia.
  - clear. induction l; now constructor.
Qed.

Lemma view_In tasks term flt t :
  In t (view tasks term flt) <->
  In t tasks /\ matchesSearch term t = true /\ matchesStatus flt t = true.
Proof.
  unfold view. split.
  - intros H. apply (Permutation_in _ (sort_perm _ _)) in H.
    apply filter_In in H. destruct H as [H Hs]. apply filter_In in H. tauto.
  - intros (H & Hm & Hs). apply (Permutation_in _ (Permutation_sym (sort_perm _ _))).
    apply filter_In. split; [| assumption]. now apply filter_In.
Qed.

(** X9. The view shows exactly the tasks of the collection that pass the
    status filter and whose lower-cased text has the lower-cased search
    term as a contiguous part, and it is always ordered by priority: no
    task stands before a task of a more urgent rank. *)
Theorem view_members_and_rank_order (tasks : list Todo) (term : jsstring)
  (flt : Filter) :
  (forall t, In t (view tasks term flt) <->
     In t tasks /\ matchesStatus flt t = true
     /\ exists a b, toLowerCase (text t) = a ++ toLowerCase term ++ b)
  /\ StronglySorted rank_le (view tasks term flt).
Proof.
  split; [| apply sort_rank_sorted].
  intros t. rewrite view_In. unfold matchesSearch. rewrite includes_iff. tauto.
Qed.

(** ** Stable sorts *)

Lemma before_cons {A : Type} (x y a : A) l :
  before x y (a :: l) <-> (x = a /\ In y l) \/ before x y l.
Proof.
  unfold before. cbn [ordered_pairs]. rewrite in_app_iff, in_map_iff. split.
  - intros [(z & E & Hz) | H]; [| now right]. injection E as <- <-. now left.
  - intros [[-> H] | H]; [| now right]. left. now exists y.
Qed.

Lemma before_In {A : Type} (x y : A) l : before x y l -> In x l /\ In y l.
Proof.
  induction l as [| a l IH]; [intros [] |]. rewrite before_cons.
  intros [[-> H] | H]; cbn [In]; [auto | tauto].
Qed.

Lemma before_app {A : Type} (x y : A) l1 l2 :
  before x y (l1 ++ l2) <->
  before x y l1 \/ (In x l1 /\ In y l2) \/ before x y l2.
Proof.
  induction l1 as [| a l1 IH]; cbn [app].
  - split; [auto |]. intros [[] | [[[] _] | H]]. exact H.
  - rewrite !before_cons, IH, in_app_iff. cbn [In]. split.
    + intros [[-> [H | H]] | [H | [[H1 H2] | H]]]; auto 6.
    + intros [[[-> H] | H] | [[[-> | H1] H2] | H]]; auto 6.
Qed.

Lemma before_NoDup {A : Type} (x y : A) l : NoDup l -> before x y l -> ~ before y x l.
Proof.
  induction l as [| a l IH]; intros Hn; [intros [] |].
  apply NoDup_cons_iff in Hn. destruct Hn as [Ha Hn]. rewrite !before_cons.
  intros [[-> H] | H] [[-> H'] | H'].
  - contradiction.
  - apply before_In in H'. tauto.
  - apply before_In in H. tauto.
  - now apply (IH Hn H).
Qed.

Lemma StronglySorted_before {A : Type} (R : A -> A -> Prop) (x y : A) l :
  StronglySorted R l -> before x y l -> R x y.
Proof.
  induction 1 as [| a l Hs IH Ha]; [intros [] |]. rewrite before_cons.
  intros [[-> H] | H]; [| auto]. rewrite Forall_forall in Ha. auto.
Qed.

(** Where the insertion sort puts an element: after the leading elements
    that the comparator places strictly before it. *)
Lemma insert_sorted_split {A : Type} (cmp : A -> A -> number) x l :
  exists p q, l = p ++ q /\ insert_sorted cmp x l = p ++ x :: q
              /\ (forall y, In y p -> 0 < SortCompare cmp x y)
              /\ (forall z q', q = z :: q' -> SortCompare cmp x z <= 0).
Proof.
  induction l as [| y l (p & q & E & Ei & Hp & Hq)]; cbn [insert_sorted].
  - exists [], []. repeat split; [intros y [] | discriminate].
  - destruct (Z.ltb_spec 0 (SortCompare cmp x y)) as [H | H].
    + exists (y :: p), q. cbn [app]. rewrite E at 1. rewrite Ei.
      repeat split; [| exact Hq]. intros z [<- | Hz]; auto.
    + exists [], (y :: l). cbn [app]. repeat split; [intros z [] |].
      intros z q' Ez. injection Ez as <- _. exact H.
Qed.

Lemma insert_sorted_at {A : Type} (cmp : A -> A -> number) x p q :
  (forall y, In y p -> 0 < SortCompare cmp x y) ->
  (forall z, In z q -> SortCompare cmp x z <= 0) ->
  insert_sorted cmp x (p ++ q) = p ++ x :: q.
Proof.
  intros Hp Hq. induction p as [| y p IH]; cbn [app insert_sorted].
  - destruct q as [| z q]; [reflexivity |]. cbn [insert_sorted].
    destruct (Z.ltb_spec 0 (SortCompare cmp x z)) as [H | H]; [| reflexivity].
    specialize (Hq z (or_introl eq_refl)). lia.
  - destruct (Z.ltb_spec 0 (SortCompare cmp x y)) as [H | H].
    + rewrite IH; [reflexivity |]. intros z Hz. apply Hp. now right.
    + specialize (Hp y (or_introl eq_refl)). lia.
Qed.

Lemma insert_sorted_keeps_before {A : Type} (cmp : A -> A -> number) a l x y :
  before x y l -> before x y (insert_sorted cmp a l).
Proof.
  destruct (insert_sorted_split cmp a l) as (p & q & -> & -> & _).
  rewrite !before_app, before_cons. cbn [In]. tauto.
Qed.

Lemma insert_sorted_before {A : Type} (cmp : A -> A -> number) a l y :
  In y l -> SortCompare cmp a y <= 0 -> before a y (insert_sorted cmp a l).
Proof.
  intros Hy Hle. induction l as [| z l IH]; [destruct Hy |].
  cbn [insert_sorted]. destruct (Z.ltb_spec 0 (SortCompare cmp a z)) as [H | H].
  - apply before_cons. right. apply IH. destruct Hy as [-> | Hy]; [lia | exact Hy].
  - apply before_cons. left. now split.
Qed.

(** The insertion sort is stable, whatever the comparator. *)
Lemma sort_keeps_ties {A : Type} (cmp : A -> A -> number) l x y :
  before x y l -> SortCompare cmp x y = 0 -> before x y (sort cmp l).
Proof.
  intros H E. induction l as [| a l IH]; [destruct H |].
  rewrite sort_cons. apply before_cons in H. destruct H as [[-> H] | H].
  - apply insert_sorted_before; [| lia].
    exact (Permutation_in _ (Permutation_sym (sort_perm cmp l)) H).
  - apply insert_sorted_keeps_before. now apply IH.
Qed.

(** What a consistent comparator gives. *)
Lemma consistent_flip {A : Type} (cmp : A -> A -> number) l a b :
  consistent_on cmp l -> In a l -> In b l ->
  (0 < SortCompare cmp a b -> SortCompare cmp b a < 0)
  /\ (SortCompare cmp a b < 0 -> 0 < SortCompare cmp b a).
Proof.
  intros H Ha Hb.
  pose proof (H a b a Ha Hb Ha) as H1. pose proof (H b a b Hb Ha Hb) as H2.
  lia.
Qed.

Lemma consistent_le_trans {A : Type} (cmp : A -> A -> number) l a b c :
  consistent_on cmp l -> In a l -> In b l -> In c l ->
  SortCompare cmp a b <= 0 -> SortCompare cmp b c <= 0 -> SortCompare cmp a c <= 0.
Proof.
  intros H Ha Hb Hc.
  pose proof (H a b c Ha Hb Hc) as H1. pose proof (H a c b Ha Hc Hb) as H2.
  pose proof (H b a c Hb Ha Hc) as H3.
  pose proof (consistent_flip cmp l a b H Ha Hb) as H4.
  pose proof (consistent_flip cmp l b c H Hb Hc) as H5.
  lia.
Qed.

Lemma consistent_on_sublist {A : Type} (cmp : A -> A -> number) l l' :
  (forall a, In a l' -> In a l) -> consistent_on cmp l -> consistent_on cmp l'.
Proof. intros Hin H a b c Ha Hb Hc. apply H; auto. Qed.

(** With a consistent comparator the insertion sort returns a stable sort. *)
Lemma sort_stable_sort_of {A : Type} (cmp : A -> A -> number) l :
  consistent_on cmp l -> stable_sort_of cmp l (sort cmp l).
Proof.
  intros H. split; [apply Permutation_sym, sort_perm |]. split.
  - intros x y Hxy.
    assert (Hs : StronglySorted
                   (fun x y => In x l /\ In y l /\ SortCompare cmp x y <= 0)
                   (sort cmp l)).
    { apply (sort_StronglySorted _ cmp (fun x => In x l)).
      - intros a b Ha Hb Hab. repeat split; [assumption | assumption |].
        destruct (consistent_flip cmp l a b H Ha Hb). lia.
      - intros a b Ha Hb Hab. now repeat split.
      - intros a b c (Ha & Hb & Hab) (_ & Hc & Hbc). repeat split; [assumption ..|].
        now apply (consistent_le_trans cmp l a b c).
      - apply Forall_forall. auto. }
    now apply (StronglySorted_before _ x y _ Hs).
  - intros x y. apply sort_keeps_ties.
Qed.

(** A stable sort of a list without repetitions, when there is one, is
    what the insertion sort returns. *)
Lemma stable_sort_unique {A : Type} (cmp : A -> A -> number) : forall l l',
  NoDup l ->
  (forall x y, In x l -> In y l ->
     SortCompare cmp x y <= 0 -> SortCompare cmp y x <= 0 -> SortCompare cmp x y = 0) ->
  stable_sort_of cmp l l' -> l' = sort cmp l.
Proof.
  induction l as [| x l IH]; intros l' Hn Hanti (Hperm & Hsorted & Hstable).
  - now apply Permutation_nil in Hperm.
  - pose proof (Permutation_NoDup Hperm Hn) as Hn'.
    apply NoDup_cons_iff in Hn. destruct Hn as [Hx Hn].
    destruct (in_split x l') as (p & q & ->).
    { apply (Permutation_in _ Hperm). now left. }
    apply Permutation_cons_app_inv in Hperm.
    assert (Hm : p ++ q = sort cmp l).
    { apply IH; [assumption | |].
      - intros a b Ha Hb. apply Hanti; now right.
      - split; [assumption |]. split.
        + intros a b Hab. apply Hsorted.
          rewrite before_app, before_cons. rewrite before_app in Hab.
          cbn [In]. tauto.
        + intros a b Hab E.
          assert (H : before a b (p ++ x :: q))
            by (apply Hstable; [apply before_cons; now right | exact E]).
          apply before_In in Hab. destruct Hab as [Ha Hb].
          rewrite before_app, before_cons in H. rewrite before_app.
          destruct H as [H | [[H1 [<- | H2]] | [[-> _] | H]]]; tauto. }
    rewrite sort_cons, <- Hm. symmetry. apply insert_sorted_at.
    + intros y Hy.
      assert (Hyx : SortCompare cmp y x <= 0).
      { apply Hsorted. rewrite before_app. right. left. split; [exact Hy | now left]. }
      destruct (Z.ltb_spec 0 (SortCompare cmp x y)) as [H | H]; [exact H | exfalso].
      assert (Hyl : In y l).
      { apply (Permutation_in _ (Permutation_sym Hperm)), in_or_app. now left. }
      assert (E : SortCompare cmp x y = 0)
        by (apply Hanti; [now left | now right | assumption ..]).
      assert (Hb : before x y (p ++ x :: q))
        by (apply Hstable; [apply before_cons; left; now split | exact E]).
      apply (before_NoDup _ _ _ Hn' Hb).
      rewrite before_app. right. left. split; [exact Hy | now left].
    + intros z Hz. apply Hsorted. rewrite before_app, before_cons. tauto.
Qed.

(** ** Tiers *)

Lemma filter_all_false {A : Type} (f : A -> bool) l :
  (forall a, In a l -> f a = false) -> filter f l = [].
Proof.
  induction l as [| a l IH]; intros H; [reflexivity |]. cbn [filter].
  rewrite (H a) by now left. apply IH. intros b Hb. apply H. now right.
Qed.

Lemma insert_other_tier p x l :
  priority x <> p ->
  filter (in_tier p) (insert_sorted compareTodos x l) = filter (in_tier p) l.
Proof.
  intros Hx. assert (Ex : in_tier p x = false).
  { unfold in_tier. destruct (Priority_eqb (priority x) p) eqn:E; [| reflexivity].
    apply Priority_eqb_eq in E. contradiction. }
  induction l as [| y l IH]; cbn [insert_sorted filter].
  - now rewrite Ex.
  - destruct (0 <? SortCompare compareTodos x y); cbn [filter].
    + now rewrite IH.
    + now rewrite Ex.
Qed.

Lemma insert_same_tier p x l :
  priority x = p -> StronglySorted rank_le l ->
  filter (in_tier p) (insert_sorted compareTodos x l)
  = insert_sorted compareTodos x (filter (in_tier p) l).
Proof.
  intros Hx. assert (Ex : in_tier p x = true) by now apply Priority_eqb_eq.
  induction l as [| y l IH]; intros Hs.
  - cbn [insert_sorted filter]. now rewrite Ex.
  - apply StronglySorted_inv in Hs. destruct Hs as [Hs Hy].
    cbn [insert_sorted filter].
    destruct (Z.ltb_spec 0 (SortCompare compareTodos x y)) as [H | H].
    + cbn [filter]. destruct (in_tier p y) eqn:Ey.
      * cbn [insert_sorted]. destruct (Z.ltb_spec 0 (SortCompare compareTodos x y));
          [| lia]. now rewrite IH.
      * now apply IH.
    + cbn [filter]. rewrite Ex. destruct (in_tier p y) eqn:Ey.
      * cbn [insert_sorted]. destruct (Z.ltb_spec 0 (SortCompare compareTodos x y));
          [lia | reflexivity].
      * assert (Hxy : priority x <> priority y).
        { intros E. unfold in_tier in Ey. rewrite <- E, Hx in Ey.
          assert (Priority_eqb p p = true) by now apply Priority_eqb_eq.
          congruence. }
        destruct (SortCompare_priority x y Hxy) as [E Hne]. rewrite E in H, Hne.
        replace (filter (in_tier p) l) with (@nil Todo); [reflexivity |].
        symmetry. apply filter_all_false. intros z Hz. rewrite Forall_forall in Hy.
        specialize (Hy z Hz). unfold rank_le in Hy.
        unfold in_tier. destruct (Priority_eqb (priority z) p) eqn:Ez; [| reflexivity].
        apply Priority_eqb_eq in Ez. rewrite Ez, <- Hx in Hy. lia.
Qed.

Lemma sort_tier p l :
  filter (in_tier p) (sort compareTodos l) = sort compareTodos (filter (in_tier p) l).
Proof.
  induction l as [| x l IH]; [reflexivity |].
  rewrite sort_cons. cbn [filter]. destruct (in_tier p x) eqn:Ex.
  - rewrite sort_cons, <- IH.
    apply insert_same_tier; [now apply Priority_eqb_eq |].
    apply sort_rank_sorted.
  - rewrite <- IH. apply insert_other_tier. intros E.
    apply Priority_eqb_eq in E. unfold in_tier in Ex. congruence.
Qed.

Lemma filter_comm {A : Type} (f g : A -> bool) l :
  filter f (filter g l) = filter g (filter f l).
Proof.
  induction l as [| a l IH]; [reflexivity |]. cbn [filter].
  destruct (f a) eqn:Ef, (g a) eqn:Eg; cbn [filter]; rewrite ?Ef, ?Eg, IH; reflexivity.
Qed.

Lemma in_order_of_all_pairs {A : Type} (cmp : A -> A -> number) l :
  (forall x y, In x l -> In y l -> SortCompare cmp x y <= 0) -> in_order cmp l.
Proof.
  induction l as [| x l IH]; intros H; [exact I |].
  destruct l as [| y l]; [exact I |]. split.
  - apply H; cbn; auto.
  - apply IH. intros a b Ha Hb. apply H; now right.
Qed.

(** X10. When the comparator is consistent on the tasks that pass the
    filters, so that ECMAScript fixes the order of the view, the priority
    tiers are sorted independently of each other: the tasks of one priority
    stand in the view exactly as the view of those tasks alone has them,
    and a tier in which no task has a due date keeps the order of the
    collection. *)
Theorem tiers_sort_independently (p : Priority) (tasks : list Todo)
  (term : jsstring) (flt : Filter) :
  consistent_on compareTodos
    (filter (matchesStatus flt) (filter (matchesSearch term) tasks)) ->
  filter (in_tier p) (view tasks term flt) = view (filter (in_tier p) tasks) term flt
  /\ ((forall t, In t tasks -> priority t = p -> due_truthy (dueDate t) = false) ->
      filter (in_tier p) (view tasks term flt)
      = filter (in_tier p) (filter (matchesStatus flt) (filter (matchesSearch term) tasks))).
Proof.
  intros _.
  assert (H : filter (in_tier p) (view tasks term flt)
              = view (filter (in_tier p) tasks) term flt).
  { unfold view. rewrite sort_tier. f_equal.
    rewrite (filter_comm (in_tier p)). f_equal. apply filter_comm. }
  split; [exact H |]. intros Hnone. rewrite H. unfold view.
  rewrite (filter_comm (in_tier p) (matchesStatus flt)).
  rewrite (filter_comm (in_tier p) (matchesSearch term)).
  apply sort_in_order. apply in_order_of_all_pairs. intros x y Hx Hy.
  apply filter_In in Hx. destruct Hx as [Hx _]. apply filter_In in Hx.
  destruct Hx as [Hx _]. apply filter_In in Hx. destruct Hx as [Hx Ex].
  apply filter_In in Hy. destruct Hy as [Hy _]. apply filter_In in Hy.
  destruct Hy as [Hy _]. apply filter_In in Hy. destruct Hy as [Hy Ey].
  apply Priority_eqb_eq in Ex, Ey. unfold SortCompare.
  rewrite compareTodos_same_priority by congruence.
  rewrite (Hnone x Hx Ex). cbn [andb]. lia.
Qed.

(** ** Due dates *)

Lemma due_order_trans x y z : due_order x y -> due_order y z -> due_order x z.
Proof.
  unfold due_order.
  intros [H1 | (E1 & ta & tb & Ha & Hb & Hab)] [H2 | (E2 & tb' & tc & Hb' & Hc & Hbc)].
  - left. lia.
  - left. rewrite <- E2. exact H1.
  - left. rewrite E1. exact H2.
  - right. split; [congruence |]. exists ta, tc. repeat split; try assumption.
    rewrite Hb in Hb'. injection Hb' as <-. lia.
Qed.

Lemma due_order_of_compare a b :
  has_due_time a -> has_due_time b ->
  (0 < SortCompare compareTodos a b -> due_order b a)
  /\ (SortCompare compareTodos a b <= 0 -> due_order a b).
Proof.
  intros [Ha Hta] [Hb Htb]. unfold due_order.
  destruct (Z.eq_dec (priorityOrder (priority a)) (priorityOrder (priority b)))
    as [E | E].
  - apply priorityOrder_inj in E. unfold SortCompare.
    rewrite compareTodos_same_priority, Ha, Hb by assumption. cbn [andb].
    destruct (due_getTime (dueDate a)) as [ta |]; [| contradiction].
    destruct (due_getTime (dueDate b)) as [tb |]; [| contradiction].
    cbn [num_sub]. split; intros H; right.
    + split; [congruence |]. exists tb, ta. repeat split. lia.
    + split; [congruence |]. exists ta, tb. repeat split. lia.
  - destruct (SortCompare_priority a b) as [-> _]; [congruence |].
    split; intros H; left; lia.
Qed.

(** X11. When every task of the collection has a valid due date, the view
    is ordered by priority and, within a priority, by due time: no task
    stands before a task that is more urgent or is of the same priority
    and due earlier. *)
Theorem view_sorted_by_priority_then_due (tasks : list Todo) (term : jsstring)
  (flt : Filter) :
  Forall has_due_time tasks ->
  StronglySorted due_order (view tasks term flt).
Proof.
  intros H. unfold view.
  apply (sort_StronglySorted due_order compareTodos has_due_time).
  - intros x y Hx Hy. now apply due_order_of_compare.
  - intros x y Hx Hy. now apply due_order_of_compare.
  - apply due_order_trans.
  - apply Forall_forall. intros t Ht. apply filter_In in Ht. destruct Ht as [Ht _].
    apply filter_In in Ht. rewrite Forall_forall in H. now apply H.
Qed.

(** ** Sorting what is sorted *)

Lemma insert_sorted_in_order {A : Type} (cmp : A -> A -> number) :
  (forall x y, 0 < SortCompare cmp x y -> SortCompare cmp y x <= 0) ->
  forall x l, in_order cmp l -> in_order cmp (insert_sorted cmp x l).
Proof.
  intros Hanti x l. induction l as [| y l IH]; intros H; [exact I |].
  cbn [insert_sorted]. destruct (Z.ltb_spec 0 (SortCompare cmp x y)) as [Hxy | Hxy].
  - destruct l as [| z l].
    + cbn [insert_sorted in_order]. split; [now apply Hanti | exact I].
    + destruct H as [Hyz H]. specialize (IH H). cbn [insert_sorted] in *.
      destruct (0 <? SortCompare cmp x z).
      * split; [exact Hyz | exact IH].
      * split; [now apply Hanti | exact IH].
  - split; [lia | exact H].
Qed.

Lemma sort_gives_in_order {A : Type} (cmp : A -> A -> number) :
  (forall x y, 0 < SortCompare cmp x y -> SortCompare cmp y x <= 0) ->
  forall l, in_order cmp (sort cmp l).
Proof.
  intros Hanti. induction l as [| x l IH]; [exact I |].
  rewrite sort_cons. now apply insert_sorted_in_order.
Qed.

Lemma filter_all_true {A : Type} (f : A -> bool) l :
  (forall a, In a l -> f a = true) -> filter f l = l.
Proof.
  induction l as [| a l IH]; intros H; [reflexivity |]. cbn [filter].
  rewrite (H a) by now left. f_equal. apply IH. intros b Hb. apply H. now right.
Qed.

(** X12. In the view no task stands right before a task that the
    comparator places strictly before it.  When the comparator is
    consistent on the tasks that pass the filters, so that ECMAScript fixes
    the order of the view, deriving the view again from the view, with the
    same search term and filter, changes nothing. *)
Theorem view_of_view (tasks : list Todo) (term : jsstring) (flt : Filter) :
  in_order compareTodos (view tasks term flt)
  /\ (consistent_on compareTodos
        (filter (matchesStatus flt) (filter (matchesSearch term) tasks)) ->
      view (view tasks term flt) term flt = view tasks term flt).
Proof.
  assert (Hord : in_order compareTodos (view tasks term flt)).
  { apply sort_gives_in_order. intros x y H. rewrite SortCompare_antisym. lia. }
  split; [exact Hord |]. intros _. unfold view at 1.
  rewrite (filter_all_true (matchesSearch term))
    by (intros t Ht; apply view_In in Ht; tauto).
  rewrite (filter_all_true (matchesStatus flt))
    by (intros t Ht; apply view_In in Ht; tauto).
  now apply sort_in_order.
Qed.

Lemma NoDup_map_filter {A B : Type} (g : A -> B) (f : A -> bool) l :
  NoDup (map g l) -> NoDup (map g (filter f l)).
Proof.
  induction l as [| a l IH]; cbn [map filter]; intros H; [constructor |].
  apply NoDup_cons_iff in H. destruct H as [Hn H].
  destruct (f a); cbn [map]; [| auto]. constructor; [| auto].
  intros Hin. apply Hn. apply in_map_iff in Hin. destruct Hin as (b & E & Hb).
  apply filter_In in Hb. apply in_map_iff. exists b. tauto.
Qed.

(** X13. The view never shows more than the collection holds: it is at
    most as long, it is empty exactly when no task passes both filters,
    and when the ids of the collection are distinct so are the ids in the
    view, which the list uses as React keys. *)
Theorem view_within_collection (tasks : list Todo) (term : jsstring) (flt : Filter) :
  (length (view tasks term flt) <= length tasks)%nat
  /\ (view tasks term flt = [] <->
      forall t, In t tasks ->
                matchesSearch term t && matchesStatus flt t = false)
  /\ (NoDup (map id tasks) -> NoDup (map id (view tasks term flt))).
Proof.
  split; [| split].
  - unfold view. rewrite (Permutation_length (sort_perm _ _)).
    etransitivity; [apply filter_length_le | apply filter_length_le].
  - split.
    + intros E t Ht. destruct (matchesSearch term t && matchesStatus flt t) eqn:Em;
        [| reflexivity].
      apply andb_true_iff in Em. assert (H : In t (view tasks term flt))
        by (apply view_In; tauto).
      rewrite E in H. contradiction.
    + intros H. destruct (view tasks term flt) as [| t l] eqn:E; [reflexivity |].
      assert (Ht : In t (view tasks term flt)) by (rewrite E; now left).
      apply view_In in Ht. destruct Ht as (Ht & Hm & Hs).
      specialize (H t Ht). rewrite Hm, Hs in H. discriminate.
  - intros H. unfold view.
    apply (Permutation_NoDup (Permutation_map id (Permutation_sym (sort_perm _ _)))).
    now do 2 apply NoDup_map_filter.
Qed.

(** ** The view and the stable sorts *)

Lemma SortCompare_due_times a b :
  has_due_time a -> has_due_time b ->
  exists ta tb,
    due_getTime (dueDate a) = Some ta /\ due_getTime (dueDate b) = Some tb
    /\ compareTodos a b <> None
    /\ SortCompare compareTodos a b
       = if priorityOrder (priority a) - priorityOrder (priority b) =? 0
         then ta - tb
         else priorityOrder (priority a) - priorityOrder (priority b).
Proof.
  intros [Ha Hta] [Hb Htb].
  destruct (due_getTime (dueDate a)) as [ta |] eqn:Ea; [| contradiction].
  destruct (due_getTime (dueDate b)) as [tb |] eqn:Eb; [| contradiction].
  exists ta, tb. split; [reflexivity |]. split; [reflexivity |].
  unfold SortCompare, compareTodos. rewrite Ha, Hb, Ea, Eb. cbn [andb num_sub].
  destruct (priorityOrder (priority a) - priorityOrder (priority b) =? 0);
    cbn [negb]; split; (discriminate || reflexivity).
Qed.

(** On tasks that all have a valid due date the comparator is
    consistent. *)
Lemma consistent_of_due_times l :
  Forall has_due_time l -> consistent_on compareTodos l.
Proof.
  intros H a b c Ha Hb Hc. rewrite Forall_forall in H.
  pose proof (H a Ha) as Da. pose proof (H b Hb) as Db. pose proof (H c Hc) as Dc.
  destruct (SortCompare_due_times a a Da Da) as (ta & ta' & Ea & Ea' & _ & ->).
  destruct (SortCompare_due_times a b Da Db) as (ta1 & tb & Ea1 & Eb & Hn & ->).
  destruct (SortCompare_due_times b a Db Da) as (tb1 & ta2 & Eb1 & Ea2 & _ & ->).
  destruct (SortCompare_due_times b c Db Dc) as (tb2 & tc & Eb2 & Ec & _ & ->).
  destruct (SortCompare_due_times a c Da Dc) as (ta3 & tc1 & Ea3 & Ec1 & _ & ->).
  assert (ta' = ta) by congruence. assert (ta1 = ta) by congruence.
  assert (ta2 = ta) by congruence. assert (ta3 = ta) by congruence.
  assert (tb1 = tb) by congruence. assert (tb2 = tb) by congruence.
  assert (tc1 = tc) by congruence. subst.
  split; [exact Hn |].
  destruct (Z.eqb_spec (priorityOrder (priority a) - priorityOrder (priority a)) 0);
    destruct (Z.eqb_spec (priorityOrder (priority a) - priorityOrder (priority b)) 0);
    destruct (Z.eqb_spec (priorityOrder (priority b) - priorityOrder (priority a)) 0);
    destruct (Z.eqb_spec (priorityOrder (priority b) - priorityOrder (priority c)) 0);
    destruct (Z.eqb_spec (priorityOrder (priority a) - priorityOrder (priority c)) 0);
    lia.
Qed.

(** X21. The view is the stable sort that ECMAScript asks of [sort],
    whenever there is one.  When the comparator is consistent on the tasks
    that pass the filters, as it is when every task has a valid due date,
    the view is a stable sort of them: it holds the same tasks, no task
    stands before a task that the comparator places strictly before it, and
    tasks that the comparator calls equal keep their order.  And when the
    ids of the collection are distinct, every list that is a stable sort of
    the tasks that pass the filters is the view, so that every engine that
    returns a stable sort shows the view. *)
Theorem view_is_the_stable_sort (tasks : list Todo) (term : jsstring)
  (flt : Filter) :
  (consistent_on compareTodos
     (filter (matchesStatus flt) (filter (matchesSearch term) tasks)) ->
   stable_sort_of compareTodos
     (filter (matchesStatus flt) (filter (matchesSearch term) tasks))
     (view tasks term flt))
  /\ (NoDup (map id tasks) ->
      forall l',
        stable_sort_of compareTodos
          (filter (matchesStatus flt) (filter (matchesSearch term) tasks)) l' ->
        l' = view tasks term flt)
  /\ (Forall has_due_time tasks ->
      consistent_on compareTodos
        (filter (matchesStatus flt) (filter (matchesSearch term) tasks))).
Proof.
  split; [| split].
  - apply sort_stable_sort_of.
  - intros Hn l' H. unfold view. apply stable_sort_unique; [| | exact H].
    + do 2 apply NoDup_filter. now apply NoDup_map_inv in Hn.
    + intros x y _ _. rewrite (SortCompare_antisym x y). lia.
  - intros H. apply consistent_of_due_times.
    apply Forall_forall. intros t Ht. apply filter_In in Ht. destruct Ht as [Ht _].
    apply filter_In in Ht. rewrite Forall_forall in H. now apply H.
Qed.


(** * Further properties of persistence and rendering *)

(** X14. Whatever the collection holds, the text that a save writes is
    valid JSON: [JSON.parse] reads it back as an array with one object per
    task, in order, and the text of each task comes back code unit for
    code unit, quotes, backslashes, control characters and lone surrogates
    included.  So a load of a saved text never throws. *)
Theorem saved_text_always_parses (st st0 : AppState) :
  JSON_parse (save st) = Some (JArr (map json_of_todo (todos st)))
  /\ Forall2 (fun t v => exists props,
                v = JObj props /\ lookup (js "text") props = Some (JStr (text t))
                /\ lookup (js "completed") props = Some (JBool (completed t)))
             (todos st) (map json_of_todo (todos st))
  /\ load (Some (save st)) st0 <> ThrewSyntaxError.
Proof.
  split; [apply JSON_parse_stringify |]. split.
  - induction (todos st) as [| t l IH]; cbn [map]; constructor; [| exact IH].
    eexists. split; [reflexivity |]. split; reflexivity.
  - unfold load, save.
    change (string_truthy (JSON_stringify (todos st))) with true. cbv iota.
    rewrite JSON_parse_stringify.
    destruct (as_todos (JArr (map json_of_todo (todos st)))); discriminate.
Qed.

Lemma reload_reload t : reload (reload t) = reload t.
Proof.
  unfold reload. cbn [id text completed category priority dueDate]. f_equal.
  now destruct (dueDate t) as [[[tv |] | s |] |].
Qed.

Lemma storable_reload t : storable t -> storable (reload t).
Proof.
  intros [Hid _]. split; [exact Hid |]. unfold reload. cbn [dueDate].
  now destruct (dueDate t) as [[[tv |] | s |] |].
Qed.

(** X15. After one trip through storage the collection is stable: saving
    and loading a collection that was loaded gives back exactly that
    collection, field for field. *)
Theorem second_round_trip_exact (st st0 : AppState) :
  Forall storable (todos st) ->
  load (Some (save (setTodos (map reload (todos st)) st))) st0
  = Loaded (setTodos (map reload (todos st)) st0).
Proof.
  intros H.
  rewrite (load_saved (map reload (todos st))).
  - rewrite map_map. f_equal. f_equal. apply map_ext. apply reload_reload.
  - reflexivity.
  - apply Forall_map. eapply Forall_impl; [| exact H]. apply storable_reload.
Qed.




(** X17. Storage does not change what the list shows: for tasks whose
    [Date] objects hold time values in range, the view of the reloaded
    collection is the view of the collection, task for task reloaded and
    in the same order, so the ids and texts shown come in the same order. *)
Theorem view_survives_storage (l : list Todo) (term : jsstring) (flt : Filter) :
  Forall (fun t => due_clipped (dueDate t)) l ->
  view (map reload l) term flt = map reload (view l term flt)
  /\ map id (view (map reload l) term flt) = map id (view l term flt)
  /\ map text (view (map reload l) term flt) = map text (view l term flt).
Proof.
  intros H. rewrite (reloaded_view l term flt H), !map_map. now repeat split.
Qed.

(** ** Rendering *)

Lemma traverse_None {A B : Type} (f : A -> option B) l :
  traverse f l = None <-> exists a, In a l /\ f a = None.
Proof.
  induction l as [| a l IH]; cbn [traverse].
  - split; [discriminate | intros (a & [] & _)].
  - destruct (f a) as [b |] eqn:E; cbn [bind].
    + destruct (traverse f l) as [bs |]; cbn [bind].
      * split; [discriminate |]. intros (x & [<- | Hx] & Hf); [congruence |].
        assert (Hb : Some bs = None) by (apply IH; now exists x).
        discriminate.
      * split; [| reflexivity]. intros _.
        destruct (proj1 IH eq_refl) as (x & Hx & Hf). exists x. split; [now right | exact Hf].
    + split; [| reflexivity]. intros _. exists a. split; [now left | exact E].
Qed.

Lemma traverse_Some {A B : Type} (f : A -> option B) l r :
  traverse f l = Some r -> Forall2 (fun a b => f a = Some b) l r.
Proof.
  revert r. induction l as [| a l IH]; cbn [traverse]; intros r H.
  - injection H as <-. constructor.
  - destruct (f a) as [b |] eqn:E; [| discriminate]. cbn [bind] in H.
    destruct (traverse f l) as [bs |]; [| discriminate]. cbn [bind] in H.
    injection H as <-. constructor; auto.
Qed.

Lemma renderRow_None fmt t :
  renderRow fmt t = None <->
  due_truthy (dueDate t) = true /\ due_getTime (dueDate t) = None.
Proof.
  unfold renderRow, format. destruct (due_truthy (dueDate t)); cbn [bind].
  - destruct (due_getTime (dueDate t)); cbn [bind].
    + split; [discriminate | intros [_ H]; discriminate H].
    + tauto.
  - split; [discriminate | intros [H _]; discriminate H].
Qed.

(** X18. Rendering the list throws exactly when a task that the view
    shows has a due date that is set but is no valid date (an Invalid Date
    object, or a string that does not parse).  Otherwise there is one row
    per task of the view, in the order of the view, with the id as key,
    the completed flag in the checkbox and the text as typed; a due label
    stands in a row exactly when the task has a due date; and the "No
    tasks yet!" message stands exactly when there is no row. *)
Theorem render_throws_iff_invalid_due (fmt : Z -> jsstring) (st : AppState) :
  (render fmt st = None <->
   exists t, In t (filteredTodos st)
             /\ due_truthy (dueDate t) = true /\ due_getTime (dueDate t) = None)
  /\ (forall scr, render fmt st = Some scr ->
        Forall2 (fun t r => key r = id t /\ checked r = completed t
                            /\ rowText r = text t
                            /\ (due r <> None <-> due_truthy (dueDate t) = true))
                (filteredTodos st) (rows scr)
        /\ (emptyMessage scr = true <-> rows scr = [])).
Proof.
  split.
  - unfold render. destruct (traverse (renderRow fmt) (filteredTodos st)) eqn:E;
      cbn [bind].
    + split; [discriminate |]. intros (t & Ht & Hd).
      assert (Hn : traverse (renderRow fmt) (filteredTodos st) = None).
      { apply traverse_None. exists t. split; [exact Ht |].
        exact (proj2 (renderRow_None fmt t) Hd). }
      congruence.
    + split; [| reflexivity]. intros _. apply traverse_None in E.
      destruct E as (t & Ht & Hn). exists t. split; [exact Ht |].
      exact (proj1 (renderRow_None fmt t) Hn).
  - intros scr H. unfold render in H.
    destruct (traverse (renderRow fmt) (filteredTodos st)) as [l |] eqn:E;
      [| discriminate]. cbn [bind] in H. injection H as <-. cbn [rows emptyMessage].
    apply traverse_Some in E. split.
    + eapply Forall2_impl; [| exact E]. intros t r Hr. unfold renderRow, format in Hr.
      destruct (due_truthy (dueDate t)); cbn [bind] in Hr.
      * destruct (due_getTime (dueDate t)); cbn [bind] in Hr; [| discriminate].
        injection Hr as <-. cbn. repeat split; auto. discriminate.
      * injection Hr as <-. cbn. repeat split; auto; intros H;
          try discriminate; exfalso; now apply H.
    + rewrite Nat.eqb_eq. rewrite (Forall2_length E).
      destruct l; cbn; split; intros H; (reflexivity || discriminate || lia).
Qed.







(** * Further properties of dates *)

(** The day number of a calendar date that exists leads back to that
    date. *)
Lemma civil_from_days_inverse y m d :
  1 <= m <= 12 -> 1 <= d <= days_in_month y m ->
  civil_from_days (days_from_civil y m d) = (y, m, d).
Proof.
  intros Hm Hd. unfold civil_from_days, days_from_civil.
  set (y' := if m <=? 2 then y - 1 else y).
  set (mp := if 2 <? m then m - 3 else m + 9).
  set (yoe := y' mod 400). set (era := y' / 400).
  set (doy := (153 * mp + 2) / 5 + d - 1).
  assert (Hmp : 0 <= mp <= 11 /\ m = (if mp <? 10 then mp + 3 else mp - 9)
                /\ (m <=? 2) = negb (mp <? 10)).
  { subst mp. destruct (Z.ltb_spec 2 m).
    - destruct (Z.ltb_spec (m - 3) 10); [| lia].
      destruct (Z.leb_spec m 2); [lia |]. cbn. lia.
    - destruct (Z.ltb_spec (m + 9) 10); [lia |].
      destruct (Z.leb_spec m 2); [| lia]. cbn. lia. }
  destruct Hmp as (Hmp & Em & Eb).
  assert (Hyoe : 0 <= yoe <= 399) by (subst yoe; zdiv).
  assert (Hy : y = (if mp <? 10 then 400 * era + yoe else 400 * era + yoe + 1)).
  { subst era yoe y'. rewrite Eb. destruct (mp <? 10); cbn [negb]; zdiv. }
  assert (Hlen : 1 <= d <= 31 /\ (mp = 1 \/ mp = 3 \/ mp = 6 \/ mp = 8 -> d <= 30)
                 /\ (mp = 11 -> d <= 29
                     /\ (d = 29 -> (yoe + 1) mod 4 = 0
                                   /\ ((yoe + 1) mod 100 <> 0 \/ yoe = 399)))).
  { clear - Hd Hm Em Hmp Hy Hyoe. unfold days_in_month, leap_year in Hd.
    destruct (Z.ltb_spec mp 10) as [Hlt | Hge].
    - destruct (Z.eqb_spec m 2); [lia |].
      destruct (Z.eqb_spec m 4), (Z.eqb_spec m 6), (Z.eqb_spec m 9),
        (Z.eqb_spec m 11); cbn [orb] in Hd; lia.
    - destruct (Z.eqb_spec m 2) as [E2 | E2].
      + assert (mp = 11) by lia.
        destruct (Z.eqb_spec (y mod 4) 0), (Z.eqb_spec (y mod 100) 0),
          (Z.eqb_spec (y mod 400) 0); cbn [andb orb negb] in Hd;
          (split; [lia |]); (split; [lia |]); intros _; (split; [lia |]);
          intros; try lia; zdiv.
      + destruct (Z.eqb_spec m 4), (Z.eqb_spec m 6), (Z.eqb_spec m 9),
          (Z.eqb_spec m 11); cbn [orb] in Hd; lia. }
  clearbody mp yoe era. clear y' Eb.
  assert (Hdoy : 0 <= doy <= 365 /\ (5 * doy + 2) / 153 = mp
                 /\ doy - (153 * mp + 2) / 5 + 1 = d
                 /\ (doy = 365 -> (yoe + 1) mod 4 = 0
                                  /\ ((yoe + 1) mod 100 <> 0 \/ yoe = 399))).
  { subst doy. clear - Hmp Hlen.
    assert (mp = 0 \/ mp = 1 \/ mp = 2 \/ mp = 3 \/ mp = 4 \/ mp = 5 \/ mp = 6
            \/ mp = 7 \/ mp = 8 \/ mp = 9 \/ mp = 10 \/ mp = 11) as Hc by lia.
    repeat (destruct Hc as [-> | Hc]); try subst mp; cbn -[Z.div Z.mul Z.add Z.modulo];
      repeat split; try zdiv; intros; zdiv. }
  clearbody doy. destruct Hdoy as (Hdoy & Emp & Ed & Hleap).
  set (doe := yoe * 365 + yoe / 4 - yoe / 100 + doy).
  assert (Hdoe : 0 <= doe < 146097) by (subst doe; zdiv).
  replace (era * 146097 + doe - 719468 + 719468) with (doe + era * 146097) by lia.
  rewrite Z.mod_add, Z.div_add by lia.
  rewrite (Z.mod_small doe), (Z.div_small doe) by lia.
  unfold civil_of_doe.
  assert (Eyoe : (doe - doe / 1460 + doe / 36524 - doe / 146096) / 365 = yoe)
    by (subst doe; zdiv).
  rewrite Eyoe.
  replace (doe - (365 * yoe + yoe / 4 - yoe / 100)) with doy by (subst doe; lia).
  rewrite Emp, Ed, <- Em.
  destruct (Z.ltb_spec mp 10); destruct (Z.leb_spec m 2); try lia;
    f_equal; f_equal; lia.
Qed.


Lemma iso_fields_date y m d :
  0 <= y <= 9999 -> 0 <= m < 100 -> 0 <= d < 100 ->
  iso_fields (date_input_value y m d) = Some (mkFields y m d 0 0 0 0 false).
Proof.
  intros Hy Hm Hd. unfold iso_fields, date_input_value.
  assert (Ey : year_text y = pad 4 y).
  { unfold year_text. now rewrite !(proj2 (Z.leb_le _ _)) by lia. }
  rewrite <- Ey, iso_year_print by lia. cbn [bind].
  change (js "-" ++ pad 2 m ++ js "-" ++ pad 2 d)
    with (45%N :: pad 2 m ++ 45%N :: pad 2 d).
  rewrite expect_cons. cbn [bind].
  rewrite take_digits_pad0 by (cbn; lia). cbn [bind].
  rewrite expect_cons. cbn [bind].
  rewrite <- (app_nil_r (pad 2 d)), take_digits_pad0 by (cbn; lia).
  reflexivity.
Qed.

Lemma days_from_civil_range y m d :
  0 <= y <= 9999 -> 1 <= m <= 12 -> 1 <= d <= 31 ->
  -1000000 <= days_from_civil y m d <= 3000000.
Proof.
  intros Hy Hm Hd. unfold days_from_civil.
  destruct (m <=? 2), (2 <? m); zdiv.
Qed.

(** X20. A due date picked in the date input is kept as midnight UTC of
    that calendar day: for a date that exists, of the years 0 to 9999,
    [new Date] reads the text YYYY-MM-DD as the day number of the date
    times the milliseconds of a day, a save writes that date as the same
    text followed by T00:00:00.000Z, and in a browser on UTC the label of
    the task shows the month and the day that were picked. *)
Theorem picked_date_is_utc_midnight (y m d : Z) :
  0 <= y <= 9999 -> 1 <= m <= 12 -> 1 <= d <= days_in_month y m ->
  Date_parse (date_input_value y m d) = Some (days_from_civil y m d * msPerDay)
  /\ stringify_due (DateObj (Date_parse (date_input_value y m d)))
     = QuoteJSONString (date_input_value y m d ++ js "T00:00:00.000Z")
  /\ format format_MMM_d_UTC (Date_parse (date_input_value y m d))
     = Some (month_name m ++ js " " ++ Number_toString d).
Proof.
  intros Hy Hm Hd. pose proof (days_in_month_le y m) as Hle.
  pose proof (days_from_civil_range y m d Hy Hm) as Hr.
  assert (Ep : Date_parse (date_input_value y m d)
               = Some (days_from_civil y m d * msPerDay)).
  { unfold Date_parse. rewrite iso_fields_date by lia.
    unfold fields_in_bounds, fields_exact, fields_time.
    cbn [f_year f_month f_day f_hour f_minute f_second f_ms f_negzero negb].
    rewrite !(proj2 (Z.leb_le _ _)) by lia. cbn [andb].
    unfold TimeClip, maxTime, msPerDay.
    rewrite !(proj2 (Z.leb_le _ _)) by lia. cbn [andb]. f_equal. lia. }
  assert (Ec : civil_from_days (days_from_civil y m d * msPerDay / msPerDay)
               = (y, m, d)).
  { rewrite Z.div_mul by (unfold msPerDay; lia).
    now apply civil_from_days_inverse. }
  rewrite Ep. split; [reflexivity |]. split.
  - cbn [stringify_due]. f_equal. unfold toISOString. rewrite Ec.
    rewrite Z.mod_mul by (unfold msPerDay; lia).
    unfold year_text. rewrite !(proj2 (Z.leb_le _ _)) by lia. cbn [andb].
    unfold date_input_value. rewrite <- !app_assoc. reflexivity.
  - cbn [format]. unfold format_MMM_d_UTC. now rewrite Ec.
Qed.

End Engine.

(** * Concrete runs *)

(** ** Loading a corrupt snapshot *)

(** The truncated text [[{] is not JSON, however deep the parser may
    recurse. *)
Lemma truncated_text_never_parses fuel : parse_value fuel (js "[{") = None.
Proof.
  destruct fuel as [| [| [| fuel]]]; reflexivity.
Qed.

(** What the parser accepts and what it refuses. *)
Example JSON_parse_samples :
  JSON_parse (js " [1, 2.5e3, -0.25, true, null, {}, [ ]] ")
    = Some (JArr [JNum 1 0; JNum 25 2; JNum (-25) (-2); JBool true; JNull;
                  JObj []; JArr []])
  /\ JSON_parse (js "[]") = Some (JArr [])
  /\ JSON_parse (js "[01]") = None
  /\ JSON_parse (js "[1,]") = None
  /\ JSON_parse (js "nul") = None
  /\ JSON_parse (js "[] x") = None.
Proof. repeat split. Qed.

(** C1, counterexample. With the truncated text [[{] under the key, load
    does not fall back to the empty collection as it does for an absent
    key: the [SyntaxError] of [JSON.parse] escapes.  With the text [5]
    under the key, load hands the number 5 to [setTodos]. *)
Lemma load_corrupt_snapshot_throws :
  load (Some (js "[{")) initialState = ThrewSyntaxError
  /\ load None initialState = Loaded initialState
  /\ load (Some (js "5")) initialState = LoadedUntyped (JNum 5 0).
Proof. repeat split. Qed.

Lemma load_outcomes_witness :
  load (Some (js "[{")) initialState = ThrewSyntaxError.
Proof.
  apply (proj2 (proj2 (proj2 (proj2 (load_outcomes initialState))))).
  - discriminate.
  - reflexivity.
Defined.

(** ** Creating a task with white space around its text *)

(** C2, counterexample. The input [ a ] has the non-empty trim [a], and
    the task that create appends has the text [ a ], white space
    included. *)
Lemma create_keeps_surrounding_whitespace :
  trim (js " a ") = js "a"
  /\ map text (todos (handleSubmit strict_Date_parse 1
                        (setInputValue (js " a ") initialState)))
     = [js " a "]
  /\ js " a " <> trim (js " a ").
Proof. repeat split. discriminate. Qed.

Lemma create_stores_input_as_typed_witness :
  exists t,
    todos (handleSubmit strict_Date_parse 1 (setInputValue (js " a ") initialState))
      = todos (setInputValue (js " a ") initialState) ++ [t]
    /\ text t = inputValue (setInputValue (js " a ") initialState)
    /\ text t <> []
    /\ trim (text t) <> []
    /\ id t = 1 /\ completed t = false
    /\ category t = selectedCategory (setInputValue (js " a ") initialState)
    /\ priority t = selectedPriority (setInputValue (js " a ") initialState).
Proof.
  apply (create_stores_input_as_typed strict_Date_parse 1
           (setInputValue (js " a ") initialState)).
  discriminate.
Defined.

(** ** Two submits within one millisecond *)

(** C3, counterexample. Two tasks submitted at the same clock reading get
    the same id: the collection reached from the initial state holds the
    id 1 twice. *)
Lemma same_millisecond_ids_collide :
  ids (run strict_Date_parse
         [TypeText (js "a"); Submit 1; TypeText (js "b"); Submit 1] initialState)
  = [1; 1]
  /\ ~ NoDup (ids (run strict_Date_parse
                     [TypeText (js "a"); Submit 1; TypeText (js "b"); Submit 1]
                     initialState)).
Proof.
  split; [reflexivity |].
  intros H. change (NoDup [1; 1]) in H. inversion H as [| x l Hin _].
  apply Hin. now left.
Qed.

Lemma ids_unique_with_distinct_clock_readings_witness :
  NoDup (ids (run strict_Date_parse
                [TypeText (js "a"); Submit 1; TypeText (js "b"); Submit 2; Toggle 1;
                 Delete 2] initialState)).
Proof.
  apply (proj1 (ids_unique_with_distinct_clock_readings strict_Date_parse)).
  cbn [submit_times]. constructor.
  - intros [H | []]. discriminate.
  - constructor; [intros [] | constructor].
Defined.

(** ** The ordering example *)

(** The three tasks are what a session that creates them in this order
    leaves in the collection. *)
Example tasks_ABC_created :
  todos (run strict_Date_parse
           [TypeText (js "A"); PickPriority low; PickDate (js "2024-03-01"); Submit 1;
            TypeText (js "B"); PickPriority high; PickDate (js "2024-03-05"); Submit 2;
            TypeText (js "C"); Submit 3] initialState)
  = [task_A; task_B; task_C]
  /\ Date_parse strict_Date_parse (js "2024-03-01") = Some 1709251200000
  /\ Date_parse strict_Date_parse (js "2024-03-05") = Some 1709596800000
  /\ toISOString 1709251200000 = js "2024-03-01T00:00:00.000Z".
Proof. repeat split. Qed.

Lemma view_orders_by_priority_then_due_date_witness :
  view strict_Date_parse ascii_toLowerCase [task_A; task_B; task_C] [] all
  = [task_B; task_C; task_A]
  /\ stable_sort_of (compareTodos strict_Date_parse)
       [task_A; task_B; task_C] [task_B; task_C; task_A]
  /\ forall l',
       stable_sort_of (compareTodos strict_Date_parse) [task_A; task_B; task_C] l' ->
       l' = [task_B; task_C; task_A].
Proof.
  apply (proj1 (view_orders_by_priority_then_due_date strict_Date_parse
                  ascii_toLowerCase eq_refl));
    reflexivity.
Defined.

(** A tier in which two tasks are due on different days and a third has
    no due date: the comparator calls B and C equal, C and D equal, and
    places D before B.  It is not consistent there and no list is a stable
    sort of the three tasks, so the order is up to the engine; the
    insertion sort leaves the tasks as they are. *)
Example mixed_tier_has_no_stable_sort :
  ~ consistent_on (compareTodos strict_Date_parse) [task_B; task_C; task_D]
  /\ (forall l',
        ~ stable_sort_of (compareTodos strict_Date_parse)
            [task_B; task_C; task_D] l')
  /\ view strict_Date_parse ascii_toLowerCase [task_B; task_C; task_D] [] all
     = [task_B; task_C; task_D].
Proof.
  split; [| split; [| reflexivity]].
  - intros H.
    destruct (H task_B task_C task_D) as (_ & _ & _ & E & _); cbn [In]; auto.
    specialize (E eq_refl eq_refl). discriminate E.
  - intros l' (Hperm & Hsorted & Hstable).
    assert (HBC : before task_B task_C l')
      by (apply Hstable; [apply before_three; auto | reflexivity]).
    assert (HCD : before task_C task_D l')
      by (apply Hstable; [apply before_three; auto | reflexivity]).
    apply Permutation_three in Hperm.
    destruct Hperm as [-> | [-> | [-> | [-> | [-> | ->]]]]];
      apply before_three in HBC; apply before_three in HCD;
      try (destruct HBC as [E | [E | E]]; discriminate E);
      try (destruct HCD as [E | [E | E]]; discriminate E).
    assert (H : SortCompare (compareTodos strict_Date_parse) task_B task_D <= 0)
      by (apply Hsorted, before_three; auto).
    vm_compute in H. now apply H.
Qed.

(** Date texts: a month 13 is no date for any engine, and what a year
    written -000000 reads as is up to the engine. *)
Example Date_parse_samples :
  Date_parse (fun _ => Some 0) (js "2024-13-01") = None
  /\ Date_parse (fun _ => Some 0) (js "-000000-01-01") = Some 0
  /\ Date_parse strict_Date_parse (js "-000000-01-01") = None
  /\ Date_parse strict_Date_parse (js "+000000-01-01") = Some (-62167219200000).
Proof. repeat split. Qed.

(** Search is by substring and ignores case. *)
Example search_buy_milk :
  let t := mkTodo 1 (js "Buy Milk") false other medium None in
  view strict_Date_parse ascii_toLowerCase [t] (js "milk") all = [t]
  /\ view strict_Date_parse ascii_toLowerCase [t] (js "MILK") all = [t]
  /\ view strict_Date_parse ascii_toLowerCase [t] (js "y mi") all = [t]
  /\ view strict_Date_parse ascii_toLowerCase [t] (js "milky") all = [].
Proof. repeat split. Qed.

(** ** Toggle and delete on an id that no task has *)

Lemma missing_entity_noop_witness :
  toggleTodo 7 (setTodos [task_A; task_B] initialState)
    = setTodos [task_A; task_B] initialState
  /\ deleteTodo 7 (setTodos [task_A; task_B] initialState)
     = setTodos [task_A; task_B] initialState
  /\ toggle_celebrates 7 (setTodos [task_A; task_B] initialState) = false.
Proof.
  apply (proj2 (missing_entity_noop 7 (setTodos [task_A; task_B] initialState))).
  cbn. intros [H | [H | []]]; discriminate.
Defined.

Lemma delete_removes_all_keeps_order_witness :
  todos (deleteTodo 2 (setTodos [task_A; task_B; task_C] initialState))
  = todos (deleteTodo 2 (setTodos [task_A; task_B] initialState))
    ++ task_C :: todos (deleteTodo 2 (setTodos [] initialState)).
Proof.
  apply (proj2 (proj2 (proj2 (delete_removes_all_keeps_order 2
           (setTodos [task_A; task_B; task_C] initialState))))
         [task_A; task_B] task_C []).
  - reflexivity.
  - discriminate.
Defined.

(** ** A save and a load *)


Lemma tasks_ABC_storable : Forall storable [task_A; task_B; task_C].
Proof.
  repeat constructor; unfold id_safe, maxSafe, maxTime; cbn; lia.
Qed.



(** * Concrete runs of the further properties *)

Lemma submit_refused_iff_white_witness :
  exists t,
    todos (handleSubmit strict_Date_parse 1 (setInputValue (js " a ") initialState))
      = todos (setInputValue (js " a ") initialState) ++ [t]
    /\ inputValue (handleSubmit strict_Date_parse 1
                     (setInputValue (js " a ") initialState)) = []
    /\ selectedDate (handleSubmit strict_Date_parse 1
                       (setInputValue (js " a ") initialState)) = []
    /\ selectedCategory (handleSubmit strict_Date_parse 1
                           (setInputValue (js " a ") initialState)) = other
    /\ selectedPriority (handleSubmit strict_Date_parse 1
                           (setInputValue (js " a ") initialState)) = medium
    /\ searchTerm (handleSubmit strict_Date_parse 1
                     (setInputValue (js " a ") initialState)) = []
    /\ statusFilter (handleSubmit strict_Date_parse 1
                       (setInputValue (js " a ") initialState)) = all.
Proof.
  apply (proj2 (submit_refused_iff_white strict_Date_parse 1
                  (setInputValue (js " a ") initialState))).
  intros H. apply Forall_inv_tail, Forall_inv in H. discriminate H.
Defined.

Lemma create_then_delete_witness :
  todos (deleteTodo 5 (handleSubmit strict_Date_parse 5
                         (setInputValue (js "x") (setTodos [task_A] initialState))))
  = [task_A].
Proof.
  apply (proj2 (create_then_delete strict_Date_parse 5
                  (setInputValue (js "x") (setTodos [task_A] initialState)))).
  cbn. intros [H | []]. discriminate H.
Defined.

Lemma confetti_iff_count_rises_witness :
  completedCount (toggleTodo 1 (setTodos [task_A; task_B] initialState))
  = S (completedCount (setTodos [task_A; task_B] initialState)).
Proof.
  apply (confetti_iff_count_rises 1 (setTodos [task_A; task_B] initialState)).
  - cbn. repeat constructor; cbn; intros H; intuition discriminate.
  - cbn. now left.
  - reflexivity.
Defined.

Lemma progress_count_matches_filters_witness :
  completedCount (setTodos [task_A; flip task_B; task_C] initialState)
  = length (view strict_Date_parse ascii_toLowerCase
              [task_A; flip task_B; task_C] [] completed_only).
Proof.
  apply (progress_count_matches_filters strict_Date_parse ascii_toLowerCase
           eq_refl 0 0 (setTodos [task_A; flip task_B; task_C] initialState)).
Defined.

Lemma collection_in_submit_order_witness :
  StronglySorted Z.lt
    (ids (run strict_Date_parse
            [TypeText (js "b"); Submit 2; Toggle 1; TypeText (js "c"); Submit 3;
             Delete 2]
            (setTodos (map reload [task_A]) initialState))).
Proof.
  apply (proj2 (collection_in_submit_order strict_Date_parse
                  [TypeText (js "b"); Submit 2; Toggle 1; TypeText (js "c"); Submit 3;
                   Delete 2]
                  (setTodos (map reload [task_A]) initialState))).
  cbn [ids todos setTodos map reload id submit_times app task_A].
  repeat constructor.
Defined.

Lemma tasks_kept_or_created_witness :
  Forall (fun t => ~ all_white (text t))
    (todos (run strict_Date_parse
              [TypeText (js "b"); Submit 2; Toggle 1; TypeText (js "  "); Submit 3]
              (setTodos (map reload [task_A]) initialState))).
Proof.
  apply (proj2 (tasks_kept_or_created strict_Date_parse
                  [TypeText (js "b"); Submit 2; Toggle 1; TypeText (js "  "); Submit 3]
                  (setTodos (map reload [task_A]) initialState))).
  constructor; [| constructor]. intros H. apply Forall_inv in H. discriminate H.
Defined.

(** The comparator is consistent on the tasks of the ordering example, and
    on two undated tasks of one priority with a task of another. *)
Lemma tasks_ABC_consistent :
  consistent_on (compareTodos strict_Date_parse) [task_A; task_B; task_C].
Proof.
  intros a b c Ha Hb Hc. cbn [In] in Ha, Hb, Hc.
  destruct Ha as [<- | [<- | [<- | []]]], Hb as [<- | [<- | [<- | []]]],
    Hc as [<- | [<- | [<- | []]]];
    vm_compute; repeat split; intros;
    first [reflexivity | discriminate | assumption | congruence].
Qed.

Lemma tasks_CAC_consistent :
  consistent_on (compareTodos strict_Date_parse) [task_C; task_A; flip task_C].
Proof.
  intros a b c Ha Hb Hc. cbn [In] in Ha, Hb, Hc.
  destruct Ha as [<- | [<- | [<- | []]]], Hb as [<- | [<- | [<- | []]]],
    Hc as [<- | [<- | [<- | []]]];
    vm_compute; repeat split; intros;
    first [reflexivity | discriminate | assumption | congruence].
Qed.

Lemma tiers_sort_independently_witness :
  filter (in_tier high)
         (view strict_Date_parse ascii_toLowerCase [task_C; task_A; flip task_C] [] all)
  = filter (in_tier high)
           (filter (matchesStatus all)
                   (filter (matchesSearch ascii_toLowerCase [])
                           [task_C; task_A; flip task_C])).
Proof.
  apply (proj2 (tiers_sort_independently strict_Date_parse ascii_toLowerCase high
                  [task_C; task_A; flip task_C] [] all tasks_CAC_consistent)).
  intros t [<- | [<- | [<- | []]]] H; (reflexivity || discriminate H).
Defined.

Lemma view_of_view_witness :
  view strict_Date_parse ascii_toLowerCase
       (view strict_Date_parse ascii_toLowerCase [task_A; task_B; task_C] [] all)
       [] all
  = view strict_Date_parse ascii_toLowerCase [task_A; task_B; task_C] [] all.
Proof.
  apply (proj2 (view_of_view strict_Date_parse ascii_toLowerCase
                  [task_A; task_B; task_C] [] all)).
  exact tasks_ABC_consistent.
Defined.

Lemma view_is_the_stable_sort_witness :
  stable_sort_of (compareTodos strict_Date_parse)
    (filter (matchesStatus all)
            (filter (matchesSearch ascii_toLowerCase []) [task_A; task_B; task_C]))
    (view strict_Date_parse ascii_toLowerCase [task_A; task_B; task_C] [] all).
Proof.
  apply (proj1 (view_is_the_stable_sort strict_Date_parse ascii_toLowerCase
                  [task_A; task_B; task_C] [] all)).
  exact tasks_ABC_consistent.
Defined.

Lemma view_sorted_by_priority_then_due_witness :
  StronglySorted (due_order strict_Date_parse)
    (view strict_Date_parse ascii_toLowerCase [task_A; task_B] [] all).
Proof.
  apply (view_sorted_by_priority_then_due strict_Date_parse ascii_toLowerCase).
  repeat constructor; cbn; discriminate.
Defined.

Lemma view_within_collection_witness :
  NoDup (map id (view strict_Date_parse ascii_toLowerCase
                   [task_A; task_B; task_C] [] all)).
Proof.
  apply (proj2 (proj2 (view_within_collection strict_Date_parse ascii_toLowerCase
                         [task_A; task_B; task_C] [] all))).
  cbn. repeat constructor; cbn; intros H; intuition discriminate.
Defined.

Lemma second_round_trip_exact_witness :
  load (Some (save (setTodos (map reload [task_A; task_B; task_C]) initialState)))
       initialState
  = Loaded (setTodos (map reload [task_A; task_B; task_C]) initialState).
Proof.
  apply (second_round_trip_exact (setTodos [task_A; task_B; task_C] initialState)
           initialState).
  exact tasks_ABC_storable.
Defined.


Lemma view_survives_storage_witness :
  view strict_Date_parse ascii_toLowerCase
       (map reload [task_A; task_B; task_C]) [] all
  = map reload (view strict_Date_parse ascii_toLowerCase
                  [task_A; task_B; task_C] [] all)
  /\ map id (view strict_Date_parse ascii_toLowerCase
               (map reload [task_A; task_B; task_C]) [] all)
     = map id (view strict_Date_parse ascii_toLowerCase
                 [task_A; task_B; task_C] [] all)
  /\ map text (view strict_Date_parse ascii_toLowerCase
                 (map reload [task_A; task_B; task_C]) [] all)
     = map text (view strict_Date_parse ascii_toLowerCase
                   [task_A; task_B; task_C] [] all).
Proof.
  apply (view_survives_storage strict_Date_parse ascii_toLowerCase).
  repeat constructor; unfold maxTime; cbn; lia.
Defined.

(** The list of the ordering example as it is rendered in UTC, and a list
    that cannot be rendered: a task whose date text is no date. *)
Example render_ABC :
  render strict_Date_parse ascii_toLowerCase format_MMM_d_UTC
         (setTodos [task_A; task_B; task_C] initialState)
  = Some (mkScreen
            [mkRow 2 false (js "B") other high red (Some (js "Mar 5"));
             mkRow 3 false (js "C") other high red None;
             mkRow 1 false (js "A") other low green (Some (js "Mar 1"))]
            false)
  /\ render strict_Date_parse ascii_toLowerCase format_MMM_d_UTC
            (run strict_Date_parse
               [TypeText (js "a"); PickDate (js "soon"); Submit 1] initialState)
     = None
  /\ render strict_Date_parse ascii_toLowerCase format_MMM_d_UTC initialState
     = Some (mkScreen [] true).
Proof. repeat split. Qed.

Lemma render_throws_iff_invalid_due_witness :
  Forall2 (fun t r => key r = id t /\ checked r = completed t
                      /\ rowText r = text t
                      /\ (due r <> None <-> due_truthy (dueDate t) = true))
          (filteredTodos strict_Date_parse ascii_toLowerCase
             (setTodos [task_A; task_B; task_C] initialState))
          [mkRow 2 false (js "B") other high red (Some (js "Mar 5"));
           mkRow 3 false (js "C") other high red None;
           mkRow 1 false (js "A") other low green (Some (js "Mar 1"))]
  /\ (false = true <->
      [mkRow 2 false (js "B") other high red (Some (js "Mar 5"));
       mkRow 3 false (js "C") other high red None;
       mkRow 1 false (js "A") other low green (Some (js "Mar 1"))] = []).
Proof.
  apply (proj2 (render_throws_iff_invalid_due strict_Date_parse ascii_toLowerCase
                  format_MMM_d_UTC (setTodos [task_A; task_B; task_C] initialState))
           (mkScreen
              [mkRow 2 false (js "B") other high red (Some (js "Mar 5"));
               mkRow 3 false (js "C") other high red None;
               mkRow 1 false (js "A") other low green (Some (js "Mar 1"))]
              false)).
  reflexivity.
Defined.


Lemma picked_date_is_utc_midnight_witness :
  Date_parse strict_Date_parse (date_input_value 2025 3 5)
  = Some (days_from_civil 2025 3 5 * msPerDay)
  /\ stringify_due (DateObj (Date_parse strict_Date_parse (date_input_value 2025 3 5)))
     = QuoteJSONString (date_input_value 2025 3 5 ++ js "T00:00:00.000Z")
  /\ format format_MMM_d_UTC (Date_parse strict_Date_parse (date_input_value 2025 3 5))
     = Some (month_name 3 ++ js " " ++ Number_toString 5).
Proof.
  apply (picked_date_is_utc_midnight strict_Date_parse 2025 3 5); [lia | lia |].
  change (days_in_month 2025 3) with 31. lia.
Defined.

Example picked_date_sample :
  date_input_value 2025 3 5 = js "2025-03-05"
  /\ days_from_civil 2025 3 5 * msPerDay = 1741132800000
  /\ month_name 3 ++ js " " ++ Number_toString 5 = js "Mar 5".
Proof. repeat split; reflexivity. Qed.
